(** * Titanic: the diff engine and the session state machine

    A shallow embedding of [diff/diff.go] (inventories, [ComputeDiff]) and of
    [model.go] (the Bubbletea [Model] and its [Update] routine), with the
    properties of the specification proved about them.

    Conventions.
    - A Go [string] is a [string] of Rocq: a finite sequence of bytes.
    - A Go [map[string]T] is a [gmap string T]; [map[string]struct{}] used as
      a set ([Model.Syncing]) is a [gset string].
    - A Go [int] is a [Z]; an index expression [s[i]] on a slice panics
      outside [0 <= i < len(s)], which [slice_at] returns as [None].
    - A function that may panic returns an [option]. *)

From stdpp Require Import gmap strings list sorting.
From Stdlib Require Import ZArith Ascii.

Local Open Scope string_scope.
Local Open Scope list_scope.

(** ** Byte-wise order on strings

    Go compares strings byte by byte ([sort.Strings] sorts in that order).
    [String.compare] is the same order: it compares the first differing
    characters by their codes, and a proper prefix is smaller. *)

Definition str_le (s1 s2 : string) : Prop := String.leb s1 s2 = true.
Definition str_lt (s1 s2 : string) : Prop := String.ltb s1 s2 = true.

Global Instance str_le_dec : RelDecision str_le.
Proof. intros s1 s2. unfold str_le. apply _. Defined.

Global Instance str_lt_dec : RelDecision str_lt.
Proof. intros s1 s2. unfold str_lt. apply _. Defined.

(** [sort.Strings]: sorts a slice of strings in increasing order.  Any sorting
    algorithm returns the same slice (see [sorted_perm_unique]); a merge sort
    stands for the library routine. *)
Definition sort_Strings (l : list string) : list string := merge_sort str_le l.

(** ** Package [diff] *)

(** [type FileHash struct { Path string; Hash string }] *)
Record FileHash : Type := mkFileHash { fh_Path : string; fh_Hash : string }.

(** [type DiffStatus int], with the constants in [iota] order. *)
Inductive DiffStatus : Type :=
  | Match
  | MissingSource
  | MissingDestination
  | Mismatch.

(** [type Diff struct { Path, SrcHash, DstHash string; Status DiffStatus }] *)
Record Diff : Type := mkDiff {
  Path : string;
  SrcHash : string;
  DstHash : string;
  Status : DiffStatus
}.

Global Instance FileHash_eq_dec : EqDecision FileHash.
Proof. solve_decision. Defined.
Global Instance DiffStatus_eq_dec : EqDecision DiffStatus.
Proof. solve_decision. Defined.
Global Instance Diff_eq_dec : EqDecision Diff.
Proof. solve_decision. Defined.

(** [for _, fh := range list { m[fh.Path] = fh.Hash }], from an empty map. *)
Definition build_map (l : list FileHash) : gmap string string :=
  foldl (λ m fh, <[fh_Path fh := fh_Hash fh]> m) ∅ l.

(** [for path := range m { pathSet[path] = struct{}{} }], the keys of [m]
    being visited in the order [ks]. *)
Definition add_paths (ks : list string) (pathSet : gmap string ()) : gmap string () :=
  foldl (λ s path, <[path := ()]> s) pathSet ks.

(** [for path := range pathSet { paths = append(paths, path) }], the keys
    being visited in the order [kp]. *)
Definition collect_paths (kp : list string) : list string :=
  foldl (λ paths path, paths ++ [path]) [] kp.

(** The [switch] of the last loop of [ComputeDiff]; [sOk] and [dOk] are the
    presence flags of the two map reads. *)
Definition classify (s d : option string) : DiffStatus :=
  match s, d with
  | None, _ => MissingSource
  | Some _, None => MissingDestination
  | Some sHash, Some dHash =>
      if decide (sHash ≠ dHash) then Mismatch else Match
  end.

(** One iteration of the last loop: a read of a missing key yields [""]. *)
Definition diff_of (srcMap dstMap : gmap string string) (path : string) : Diff :=
  let s := srcMap !! path in
  let d := dstMap !! path in
  mkDiff path (default "" s) (default "" d) (classify s d).

Definition build_diffs (srcMap dstMap : gmap string string)
    (paths : list string) : list Diff :=
  foldl (λ diffs path, diffs ++ [diff_of srcMap dstMap path]) [] paths.

(** The body of [ComputeDiff], given the orders [ks], [kd], [kp] in which the
    three [range] loops over maps visit the keys of [srcMap], [dstMap] and
    [pathSet]. *)
Definition ComputeDiff_visiting (ks kd kp : list string)
    (srcList dstList : list FileHash) : list Diff :=
  let srcMap := build_map srcList in
  let dstMap := build_map dstList in
  let paths := sort_Strings (collect_paths kp) in
  build_diffs srcMap dstMap paths.

Definition path_set (ks kd : list string) : gmap string () :=
  add_paths kd (add_paths ks ∅).

(** Go leaves the iteration order of a map unspecified: a [range] loop visits
    every key once, in some order. *)
Definition range_order {V} (m : gmap string V) (ks : list string) : Prop :=
  ks ≡ₚ (map_to_list m).*1.

(** The runs of [ComputeDiff]: one per choice of the three visiting orders. *)
Inductive ComputeDiff_run (srcList dstList : list FileHash) : list Diff → Prop :=
  | ComputeDiff_run_intro ks kd kp :
      range_order (build_map srcList) ks →
      range_order (build_map dstList) kd →
      range_order (path_set ks kd) kp →
      ComputeDiff_run srcList dstList
        (ComputeDiff_visiting ks kd kp srcList dstList).

(** An executable [ComputeDiff]: the run that visits the keys in the order of
    [map_to_list]. *)
Definition go_range {V} (m : gmap string V) : list string := (map_to_list m).*1.

Definition ComputeDiff (srcList dstList : list FileHash) : list Diff :=
  let ks := go_range (build_map srcList) in
  let kd := go_range (build_map dstList) in
  let kp := go_range (path_set ks kd) in
  ComputeDiff_visiting ks kd kp srcList dstList.

(** The hash of the last record of a list with a given path, if any (see
    [last_hash_Some_split]). *)
Definition last_hash (path : string) (l : list FileHash) : option string :=
  fh_Hash <$> last (filter (λ fh, fh_Path fh = path) l).

(** ** Inventory producers ([ListLocal], [ListRemote])

    The file system, the remote shell and the library routines that read them
    are the environment of the two producers; the section takes them as
    variables. *)

(** A Go [error] value that is not [nil]; [option error] is a Go [error]. *)
Definition error : Type := string.

(** [strings.TrimRight(s, "/")]: [s] without its trailing slashes. *)
Fixpoint TrimRight_slash (s : string) : string :=
  match s with
  | EmptyString => EmptyString
  | String c s' =>
      match TrimRight_slash s' with
      | EmptyString => if decide (c = "/"%char) then EmptyString
                       else String c EmptyString
      | t => String c t
      end
  end.

(** [strings.TrimPrefix(file, "./")] *)
Definition TrimPrefix_dot_slash (file : string) : string :=
  match file with
  | String "."%char (String "/"%char rest) => rest
  | _ => file
  end.

(** [strings.SplitN(addr, ":", 2)]: the text before and after the first
    colon, or the whole text alone when it has no colon. *)
Fixpoint SplitN_colon_2 (addr : string) : list string :=
  match addr with
  | EmptyString => [EmptyString]
  | String c rest =>
      if decide (c = ":"%char) then [EmptyString; rest]
      else match SplitN_colon_2 rest with
           | x :: xs => String c x :: xs
           | [] => []
           end
  end.

(** [strings.Contains(src, ":")] *)
Fixpoint Contains_colon (src : string) : bool :=
  match src with
  | EmptyString => false
  | String c rest => if decide (c = ":"%char) then true else Contains_colon rest
  end.

(** What the operating system answers when [filepath.WalkDir] visits one
    entry and the callback of [ListLocal] works on it. *)
Record visit : Type := mkVisit {
  v_err : option error;      (* the [err] argument passed to the callback *)
  v_IsDir : bool;            (* [d.IsDir()] *)
  v_Rel : string + error;    (* [filepath.Rel(dir, path)] *)
  v_Open : option error;     (* the error of [os.Open(path)] *)
  v_Copy : string + error    (* [io.Copy(h, f)]: the hex digest of the whole
                                content, or the read error *)
}.

(** The callback given to [filepath.WalkDir]: the new [results] and the error
    it returns. *)
Definition walk_fn (results : list FileHash) (v : visit)
    : list FileHash * option error :=
  match v_err v with
  | Some err => (results, Some err)
  | None =>
      if v_IsDir v then (results, None)
      else match v_Rel v with
           | inr err => (results, Some err)
           | inl rel =>
               match v_Open v with
               | Some err => (results, Some err)
               | None =>
                   match v_Copy v with
                   | inr err => (results, Some err)
                   | inl hash => (results ++ [mkFileHash rel hash], None)
                   end
               end
           end
  end.

(** [filepath.WalkDir]: calls the callback on every entry of the tree, in
    order, and stops with the first error the callback returns (the callback
    of [ListLocal] never returns [SkipDir] or [SkipAll]). *)
Fixpoint WalkDir (visits : list visit) (results : list FileHash)
    : list FileHash * option error :=
  match visits with
  | [] => (results, None)
  | v :: visits' =>
      match walk_fn results v with
      | (results', Some err) => (results', Some err)
      | (results', None) => WalkDir visits' results'
      end
  end.

(** A visit one of whose steps fails: the entry could not be enumerated
    ([err] is set), or it is not a directory and its relative path, its
    opening or the reading (hashing) of its content fails. *)
Definition step_fails {A} (r : A + error) : Prop :=
  match r with inl _ => False | inr _ => True end.

Definition visit_fails (v : visit) : Prop :=
  is_Some (v_err v) ∨
  (v_IsDir v = false ∧
   (step_fails (v_Rel v) ∨ is_Some (v_Open v) ∨ step_fails (v_Copy v))).

Global Instance visit_fails_dec (v : visit) : Decision (visit_fails v).
Proof.
  unfold visit_fails, step_fails.
  destruct (v_Rel v), (v_Copy v); apply _.
Defined.



(** The loop of [ListRemote] over the scanned lines. *)
Definition parse_line (fields : list string) (results : list FileHash)
    : list FileHash :=
  match fields with
  | h :: file :: _ => results ++ [mkFileHash (TrimPrefix_dot_slash file) h]
  | _ => results
  end.

Section environment.
(** The entries [filepath.WalkDir] visits below a root, as long as the
    callback returns [nil]. *)
Variable tree : string → list visit.
(** [ExecCommand(name, args...)] followed by [cmd.Run()], with standard
    output and standard error collected in one buffer. *)
Variable ExecCommand : string → list string → option error * string.
(** [bufio.Scanner] over the buffer: the lines it yields and [s.Err()]. *)
Variable ScanLines : string → list string * option error.
(** [strings.Fields] *)
Variable Fields : string → list string.

Definition ListLocal (dir : string) : list FileHash + error :=
  let dir := TrimRight_slash dir in
  match WalkDir (tree dir) [] with
  | (_, Some err) => inr err
  | (results, None) => inl results
  end.

Definition ListRemote (addr : string) : list FileHash + error :=
  match SplitN_colon_2 addr with
  | [host; base] =>
      let base := TrimRight_slash base in
      let script :=
        "cd " +:+ base +:+ " && find . -type f -exec md5sum {} +" in
      match ExecCommand "ssh" [host; script] with
      | (Some err, _) => inr ("ssh error: " +:+ err)
      | (None, out) =>
          let '(lines, serr) := ScanLines out in
          let results :=
            foldl (λ results line, parse_line (Fields line) results) [] lines in
          match serr with
          | Some err => inr err
          | None => inl results
          end
      end
  | _ => inr ("invalid remote address " +:+ addr)
  end.

(** [getFileHashes] of [main.go] *)
Definition getFileHashes (src : string) : list FileHash + error :=
  if Contains_colon src then ListRemote src else ListLocal src.
End environment.

(** ** The session ([model.go]) *)

(** [type DirectoryPair struct { Source, Destination string }] *)
Record DirectoryPair : Type := mkDirectoryPair {
  Source : string;
  Destination : string
}.

(** [type Model struct]; [Syncing] is the in-flight set.  [Update] has a value
    receiver and returns its copy of the model; the map and the slices the
    copy shares with the caller's model are written in place, which the
    state-passing model renders as the new field values.  The inner slices of
    [Diffs] are built one per pair ([computeAllDiffs]) and share no storage,
    so a write into one of them is an update of that list alone. *)
Record Model : Type := mkModel {
  Pairs : list DirectoryPair;
  Index : Z;
  Diffs : list (list Diff);
  Loading : bool;
  Syncing : gset string
}.

(** The messages [Update] reacts to.  [KeyMsg key] carries [msg.String()];
    [otherMsg] stands for every other [tea.Msg]. *)
Inductive Msg : Type :=
  | diffsMsg (diffs : list (list Diff))
  | syncStartMsg (index : Z) (path : string)
  | syncDoneMsg (index : Z) (path : string) (err : option error)
      (srcHash : string)
  | KeyMsg (key : string)
  | otherMsg.

(** The commands [Update] returns; [option Cmd] is a [tea.Cmd], [None] being
    [nil].  A command is kept as the call that builds it. *)
#[warnings="-register-all"]
Inductive Cmd : Type :=
  | Quit
  | computeDiffsCmd (pairs : list DirectoryPair)
  | syncStartCmd (index : Z) (path : string)
  | syncFileCmd (index : Z) (path : string) (pr : DirectoryPair)
  | Batch (cmds : list Cmd).

(** [s[i]] for a Go [int] index: [None] is the index-out-of-range panic. *)
Definition slice_at {A} (s : list A) (i : Z) : option A :=
  if decide (0 ≤ i)%Z then s !! Z.to_nat i else None.

(** The loop of the [syncDoneMsg] case: the first record with the path of the
    message is patched in place, then [break]. *)
Fixpoint patch_done (path srcHash : string) (ds : list Diff) : list Diff :=
  match ds with
  | [] => []
  | d :: ds' =>
      if decide (Path d = path)
      then mkDiff (Path d) (SrcHash d) srcHash Match :: ds'
      else d :: patch_done path srcHash ds'
  end.

(** The test of the ["s"] case:
    [d.Status == diff.MissingDestination || d.Status == diff.Mismatch]. *)
Definition needs_repair (d : Diff) : Prop :=
  Status d = MissingDestination ∨ Status d = Mismatch.

Global Instance needs_repair_dec (d : Diff) : Decision (needs_repair d).
Proof. unfold needs_repair. apply _. Defined.

(** The loop of the ["s"] case: two commands per record to repair. *)
Definition sync_cmds (idx : Z) (pr : DirectoryPair) (ds : list Diff)
    : list Cmd :=
  foldl (λ cmds d,
           if decide (needs_repair d)
           then (cmds ++ [syncStartCmd idx (Path d)])
                  ++ [syncFileCmd idx (Path d) pr]
           else cmds) [] ds.

Definition set_Index (m : Model) (i : Z) : Model :=
  mkModel (Pairs m) i (Diffs m) (Loading m) (Syncing m).
Definition set_Diffs (m : Model) (ds : list (list Diff)) : Model :=
  mkModel (Pairs m) (Index m) ds (Loading m) (Syncing m).
Definition set_Loading (m : Model) (b : bool) : Model :=
  mkModel (Pairs m) (Index m) (Diffs m) b (Syncing m).
Definition set_Syncing (m : Model) (s : gset string) : Model :=
  mkModel (Pairs m) (Index m) (Diffs m) (Loading m) s.

(** [func (m Model) Update(msg tea.Msg) (tea.Model, tea.Cmd)]; [None] when the
    routine panics. *)
Definition Update (m : Model) (msg : Msg) : option (Model * option Cmd) :=
  match msg with
  | diffsMsg diffs =>
      Some (set_Loading (set_Diffs m diffs) false, None)
  | syncStartMsg index path =>
      if decide (index = Index m)
      then Some (set_Syncing m ({[path]} ∪ Syncing m), None)
      else Some (m, None)
  | syncDoneMsg index path err srcHash =>
      if decide (index = Index m) then
        let m := set_Syncing m (Syncing m ∖ {[path]}) in
        match err with
        | None =>
            match slice_at (Diffs m) index with
            | None => None
            | Some ds =>
                Some (set_Diffs m
                        (<[Z.to_nat index := patch_done path srcHash ds]>
                           (Diffs m)), None)
            end
        | Some _ => Some (m, None)
        end
      else Some (m, None)
  | KeyMsg key =>
      if decide (key = "q") then Some (m, Some Quit)
      else if decide (key = "tab") then
        if decide (Index m < Z.of_nat (length (Pairs m)) - 1)%Z
        then Some (set_Index m (Index m + 1)%Z, None)
        else Some (set_Index m 0%Z, None)
      else if decide (key = "r") then
        Some (set_Loading m true, Some (computeDiffsCmd (Pairs m)))
      else if decide (key = "s") then
        let idx := Index m in
        match slice_at (Pairs m) idx with
        | None => None
        | Some pr =>
            match slice_at (Diffs m) idx with
            | None => None
            | Some ds => Some (m, Some (Batch (sync_cmds idx pr ds)))
            end
        end
      else Some (m, None)
  | otherMsg => Some (m, None)
  end.

(** The event loop applies [Update] to the messages one by one; a panic ends
    the program. *)
Fixpoint run (m : Model) (msgs : list Msg) : option Model :=
  match msgs with
  | [] => Some m
  | msg :: msgs' =>
      match Update m msg with
      | None => None
      | Some (m', _) => run m' msgs'
      end
  end.

(** The index of a session is an index into its pair list (this holds at
    start-up when there is a pair, and [Update] keeps it, along with the pair
    list: see [run_Index_in_range]). *)
Definition Index_in_range (m : Model) : Prop :=
  (0 ≤ Index m < Z.of_nat (length (Pairs m)))%Z.

(** [computeAllDiffs] and [NewModel], over the answers of the two producers
    at the time of the scan. *)
Section startup.
Variable scan_source : string → list FileHash + error.
Variable scan_destination : string → list FileHash + error.

Definition computeAllDiffs (pairs : list DirectoryPair) : list (list Diff) :=
  foldl (λ all p,
           match scan_source (Source p), scan_destination (Destination p) with
           | inl src, inl dst => all ++ [ComputeDiff src dst]
           | _, _ => all ++ [[]]
           end) [] pairs.

Definition NewModel (pairs : list DirectoryPair) : Model :=
  mkModel pairs 0%Z (computeAllDiffs pairs) false ∅.
End startup.

(** ** Definitions used by the further properties *)

(** A record read from the other side: the two hashes exchanged, and with
    them the two statuses that tell which side misses the file. *)
Definition swap_sides (d : Diff) : Diff :=
  mkDiff (Path d) (DstHash d) (SrcHash d)
    match Status d with
    | MissingSource => MissingDestination
    | MissingDestination => MissingSource
    | Match => Match
    | Mismatch => Mismatch
    end.

(** What the loop of the [syncDoneMsg] case does to one record when the paths
    of the list are distinct (see [patch_done_distinct]). *)
Definition patch_record (path srcHash : string) (d : Diff) : Diff :=
  if decide (Path d = path) then mkDiff (Path d) (SrcHash d) srcHash Match
  else d.

(** The loop of [syncFileCmd] over the re-read source inventory:
    [for _, fh := range src { if fh.Path == path { newHash = fh.Hash; break } }],
    [newHash] being [""] at first. *)
Fixpoint find_hash (path : string) (src : list FileHash) : string :=
  match src with
  | [] => ""
  | fh :: src' =>
      if decide (fh_Path fh = path) then fh_Hash fh else find_hash path src'
  end.

(** The message [syncFileCmd(index, path, pr)] returns when it runs, given the
    error of [cmd.Run()] on rsync and the answer of [getFileHashes(pr.Source)],
    whose error is dropped ([src, _ := ...] leaves [src] empty on error). *)
Definition syncFileCmd_msg (rsync : option error)
    (reread : list FileHash + error) (index : Z) (path : string) : Msg :=
  let src := match reread with inl src => src | inr _ => [] end in
  syncDoneMsg index path rsync (find_hash path src).

(** A session in which [Update] finds what it indexes: the index is an index
    into the pair list, and there is one diff list per pair. *)
Definition Model_wf (m : Model) : Prop :=
  Index_in_range m ∧ length (Diffs m) = length (Pairs m).

(** What a done event of the current pair does to the current diff list. *)
Definition done_effect (err : option error) (P h : string) (ds : list Diff)
    : list Diff :=
  match err with None => patch_done P h ds | Some _ => ds end.

(** ** Stand-ins for the library routines, to run [ListRemote]

    [ListRemote] takes the scanner and [strings.Fields] from its environment.
    On ASCII text with short lines they are the two functions below. *)

(** The line feed character, as a string. *)
Definition LF : string := String "010"%char "".

(** The pieces of a text between the characters that [sep] accepts, empty
    pieces included. *)
Fixpoint split_on (sep : ascii → bool) (s : string) : list string :=
  match s with
  | EmptyString => [EmptyString]
  | String c s' =>
      if sep c then EmptyString :: split_on sep s'
      else match split_on sep s' with
           | x :: xs => String c x :: xs
           | [] => [String c EmptyString]
           end
  end.

(** The white space of [strings.Fields] on ASCII text: tab, line feed,
    vertical tab, form feed, carriage return and space. *)
Definition is_ascii_space (c : ascii) : bool :=
  bool_decide (c ∈ ["009"; "010"; "011"; "012"; "013"; " "]%char).

(** [strings.Fields] on ASCII text: the maximal runs without white space. *)
Definition Fields_ascii (line : string) : list string :=
  filter (λ f, f ≠ EmptyString) (split_on is_ascii_space line).

(** One carriage return less at the end of a line, as the scanner drops it. *)
Fixpoint dropCR (line : string) : string :=
  match line with
  | EmptyString => EmptyString
  | String c EmptyString =>
      if bool_decide (c = "013"%char) then EmptyString else line
  | String c rest => String c (dropCR rest)
  end.

(** [bufio.Scanner] with its default line splitting, on a buffer whose lines
    all fit the token limit (so that [s.Err()] is [nil]): the text between
    line feeds, without what follows the last line feed when that is empty. *)
Definition ScanLines_short (out : string) : list string * option error :=
  let pieces := split_on (λ c, bool_decide (c = "010"%char)) out in
  let lines := match last pieces with
               | Some EmptyString => removelast pieces
               | _ => pieces
               end in
  (dropCR <$> lines, None).

(** * Properties *)

(** ** The order on paths *)

Lemma ascii_compare_cases (c1 c2 : ascii) :
  CompareSpec (c1 = c2) (N_of_ascii c1 < N_of_ascii c2)%N
    (N_of_ascii c2 < N_of_ascii c1)%N (Ascii.compare c1 c2).
Proof.
  unfold Ascii.compare.
  destruct (N.compare_spec (N_of_ascii c1) (N_of_ascii c2)) as [E|L|G];
    constructor; try done.
  rewrite <- (ascii_N_embedding c1), <- (ascii_N_embedding c2). by rewrite E.
Qed.

Lemma ascii_compare_refl (c : ascii) : Ascii.compare c c = Eq.
Proof. unfold Ascii.compare. apply N.compare_refl. Qed.

Lemma string_compare_refl (s : string) : String.compare s s = Eq.
Proof. induction s as [|c s IH]; simpl; [done|]. by rewrite ascii_compare_refl. Qed.

Lemma string_compare_lt_trans (s1 s2 s3 : string) :
  String.compare s1 s2 = Lt → String.compare s2 s3 = Lt →
  String.compare s1 s3 = Lt.
Proof.
  revert s2 s3. induction s1 as [|c1 s1 IH]; intros [|c2 s2] [|c3 s3];
    simpl; try done.
  destruct (ascii_compare_cases c1 c2) as [->|L12|G12]; try done.
  - destruct (ascii_compare_cases c2 c3) as [->|L23|G23]; try done.
    apply IH.
  - destruct (ascii_compare_cases c2 c3) as [->|L23|G23]; try done.
    + intros _ _. destruct (ascii_compare_cases c1 c3) as [->|L|G]; [lia|done|lia].
    + intros _ _. destruct (ascii_compare_cases c1 c3) as [->|L|G]; [lia|done|lia].
Qed.

Lemma str_le_alt (s1 s2 : string) :
  str_le s1 s2 ↔ String.compare s1 s2 = Lt ∨ s1 = s2.
Proof.
  unfold str_le, String.leb. split.
  - destruct (String.compare s1 s2) eqn:E; try done.
    + right. by apply String.compare_eq_iff.
    + by left.
  - intros [->| ->]; [done|]. by rewrite string_compare_refl.
Qed.

Lemma str_lt_alt (s1 s2 : string) : str_lt s1 s2 ↔ String.compare s1 s2 = Lt.
Proof. unfold str_lt, String.ltb. by destruct (String.compare s1 s2). Qed.

Lemma str_lt_irrefl (s : string) : ¬ str_lt s s.
Proof. rewrite str_lt_alt, string_compare_refl. done. Qed.

Lemma str_lt_le_ne (s1 s2 : string) : str_lt s1 s2 ↔ str_le s1 s2 ∧ s1 ≠ s2.
Proof.
  rewrite str_lt_alt, str_le_alt. split.
  - intros L. split; [by left|]. intros ->.
    by rewrite string_compare_refl in L.
  - intros [[L|E] N]; done.
Qed.

Global Instance str_le_refl : Reflexive str_le.
Proof. intros s. apply str_le_alt. by right. Qed.

Global Instance str_le_trans : Transitive str_le.
Proof.
  intros s1 s2 s3. rewrite !str_le_alt. intros [L12| ->] [L23| ->]; eauto.
  left. by eapply string_compare_lt_trans.
Qed.

Global Instance str_le_antisym : AntiSymm (=) str_le.
Proof. intros s1 s2. apply String.leb_antisym. Qed.

Global Instance str_le_total : Total str_le.
Proof. intros s1 s2. apply String.leb_total. Qed.

(** A sorted arrangement of given strings is unique: whichever algorithm
    [sort.Strings] runs, its result is that of [sort_Strings]. *)
Lemma sorted_perm_unique (l1 l2 : list string) :
  Sorted str_le l1 → Sorted str_le l2 → l1 ≡ₚ l2 → l1 = l2.
Proof. apply Sorted_unique; apply _. Qed.

Lemma sort_Strings_sorted (l : list string) : StronglySorted str_le (sort_Strings l).
Proof. apply StronglySorted_merge_sort; apply _. Qed.

Lemma sort_Strings_perm (l : list string) : sort_Strings l ≡ₚ l.
Proof. apply merge_sort_Permutation. Qed.

Lemma sort_Strings_proper (l1 l2 : list string) :
  l1 ≡ₚ l2 → sort_Strings l1 = sort_Strings l2.
Proof.
  intros P. apply sorted_perm_unique.
  - apply Sorted_merge_sort; apply _.
  - apply Sorted_merge_sort; apply _.
  - by rewrite !sort_Strings_perm.
Qed.

Lemma strictly_sorted (l : list string) :
  StronglySorted str_le l → NoDup l → StronglySorted str_lt l.
Proof.
  induction 1 as [|x l S IH F]; intros ND; [constructor|].
  apply NoDup_cons in ND as [Nx ND]. constructor; [by apply IH|].
  rewrite Forall_forall in F |- *. intros y Hy. apply str_lt_le_ne.
  split; [by apply F|]. intros ->. done.
Qed.

Lemma strictly_sorted_NoDup (l : list string) :
  StronglySorted str_lt l → NoDup l.
Proof.
  induction 1 as [|x l S IH F]; [constructor|].
  apply NoDup_cons. split; [|done]. intros Hx.
  rewrite Forall_forall in F. by apply (str_lt_irrefl x), F.
Qed.

(** ** The loops of [ComputeDiff] *)

Lemma foldl_snoc_map {A B} (f : A → B) (l : list A) (acc : list B) :
  foldl (λ acc x, acc ++ [f x]) acc l = acc ++ (f <$> l).
Proof.
  revert acc. induction l as [|x l IH]; intros acc; simpl.
  - by rewrite app_nil_r.
  - rewrite IH. by rewrite <- app_assoc.
Qed.

Lemma collect_paths_id (kp : list string) : collect_paths kp = kp.
Proof.
  unfold collect_paths.
  rewrite (foldl_snoc_map (λ x, x)). simpl. by rewrite list_fmap_id.
Qed.

Lemma build_diffs_map (srcMap dstMap : gmap string string) (paths : list string) :
  build_diffs srcMap dstMap paths = diff_of srcMap dstMap <$> paths.
Proof. unfold build_diffs. by rewrite foldl_snoc_map. Qed.

Lemma build_diffs_paths (srcMap dstMap : gmap string string) (paths : list string) :
  Path <$> build_diffs srcMap dstMap paths = paths.
Proof.
  rewrite build_diffs_map, <- list_fmap_compose.
  rewrite <- (list_fmap_id paths) at 2. by apply list_fmap_ext.
Qed.

(** The hash a map built by [build_map] holds for a path is that of the last
    record of the list with this path. *)
Lemma build_map_snoc (l : list FileHash) (fh : FileHash) :
  build_map (l ++ [fh]) = <[fh_Path fh := fh_Hash fh]> (build_map l).
Proof. unfold build_map. by rewrite foldl_snoc. Qed.

Lemma build_map_lookup (l : list FileHash) (path : string) :
  build_map l !! path = last_hash path l.
Proof.
  unfold last_hash. induction l as [|fh l IH] using rev_ind; [done|].
  rewrite build_map_snoc, filter_app, filter_cons, filter_nil.
  destruct (decide (fh_Path fh = path)) as [E|N].
  - rewrite last_snoc. simpl. rewrite <- E. by rewrite lookup_insert_eq.
  - rewrite app_nil_r, lookup_insert_ne by done. apply IH.
Qed.

Lemma last_hash_is_Some (path : string) (l : list FileHash) :
  is_Some (last_hash path l) ↔ path ∈ fh_Path <$> l.
Proof.
  unfold last_hash. rewrite fmap_is_Some, last_is_Some. split.
  - intros NE. destruct (filter _ l) as [|fh k] eqn:E; [done|].
    assert (fh ∈ filter (λ fh, fh_Path fh = path) l) as Hin
      by (rewrite E; left).
    apply list_elem_of_filter in Hin as [<- Hin].
    by apply list_elem_of_fmap_2.
  - intros (fh & -> & Hin)%list_elem_of_fmap E.
    assert (fh ∈ filter (λ fh', fh_Path fh' = fh_Path fh) l) as H
      by (by apply list_elem_of_filter).
    rewrite E in H. by apply not_elem_of_nil in H.
Qed.

Lemma last_hash_None (path : string) (l : list FileHash) :
  last_hash path l = None ↔ path ∉ fh_Path <$> l.
Proof. rewrite <- last_hash_is_Some, eq_None_not_Some. done. Qed.

(** When the paths of the list are distinct, the last record with a path is
    the only one. *)
Lemma last_hash_unique (path hash : string) (l : list FileHash) :
  NoDup (fh_Path <$> l) →
  last_hash path l = Some hash ↔ mkFileHash path hash ∈ l.
Proof.
  unfold last_hash. induction l as [|fh l IH] using rev_ind; intros ND.
  - simpl. split; [done|]. intros H. by apply not_elem_of_nil in H.
  - rewrite fmap_app in ND. apply NoDup_app in ND as (ND & Hfresh & _).
    rewrite filter_app, filter_cons, filter_nil, elem_of_app, list_elem_of_singleton.
    destruct (decide (fh_Path fh = path)) as [E|N].
    + rewrite last_snoc. simpl. split.
      * intros [= <-]. right. destruct fh; simpl in *; by subst.
      * intros [Hin|Heq]; [|by subst fh]. exfalso.
        apply (Hfresh path); [|simpl; rewrite E; left].
        by apply (list_elem_of_fmap_2 fh_Path) in Hin.
    + rewrite app_nil_r, IH by done. split; [by left|].
      intros [Hin|Heq]; [done|]. subst fh. by destruct N.
Qed.

Lemma build_map_perm (l1 l2 : list FileHash) :
  NoDup (fh_Path <$> l1) → l1 ≡ₚ l2 → build_map l1 = build_map l2.
Proof.
  intros ND P. assert (NoDup (fh_Path <$> l2)) as ND2 by (by rewrite <- P).
  apply map_eq. intros path. rewrite !build_map_lookup.
  apply option_eq. intros hash. rewrite !last_hash_unique by done.
  by rewrite P.
Qed.

(** The keys of the path set are the paths of either map. *)
Lemma add_paths_lookup (ks : list string) (pathSet : gmap string ()) (path : string) :
  is_Some (add_paths ks pathSet !! path) ↔ path ∈ ks ∨ is_Some (pathSet !! path).
Proof.
  unfold add_paths. revert pathSet.
  induction ks as [|k ks IH]; intros pathSet; simpl.
  - split; [by right|]. intros [H|H]; [by apply not_elem_of_nil in H|done].
  - rewrite IH, elem_of_cons, lookup_insert_is_Some.
    destruct (decide (k = path)) as [->|N]; [tauto|].
    split.
    + intros [?|[?|[_ ?]]]; [tauto|done|tauto].
    + intros [[?|?]|?]; [by subst|tauto|tauto].
Qed.

Lemma range_order_elem_of {V} (m : gmap string V) (ks : list string) (path : string) :
  range_order m ks → path ∈ ks ↔ is_Some (m !! path).
Proof.
  unfold range_order. intros ->. rewrite list_elem_of_fmap. split.
  - intros ([k v] & -> & Hin). apply elem_of_map_to_list in Hin. by exists v.
  - intros [v Hv]. exists (path, v). split; [done|].
    by apply elem_of_map_to_list.
Qed.

Lemma range_order_NoDup {V} (m : gmap string V) (ks : list string) :
  range_order m ks → NoDup ks.
Proof. unfold range_order. intros ->. apply NoDup_fst_map_to_list. Qed.

Lemma go_range_order {V} (m : gmap string V) : range_order m (go_range m).
Proof. unfold range_order, go_range. reflexivity. Qed.

Lemma path_set_keys (srcMap dstMap : gmap string string) (ks kd kp : list string)
    (path : string) :
  range_order srcMap ks → range_order dstMap kd →
  range_order (path_set ks kd) kp →
  path ∈ kp ↔ is_Some (srcMap !! path) ∨ is_Some (dstMap !! path).
Proof.
  intros Hs Hd Hp. rewrite (range_order_elem_of _ _ _ Hp). unfold path_set.
  rewrite !add_paths_lookup, lookup_empty, is_Some_alt.
  rewrite (range_order_elem_of _ _ _ Hs), (range_order_elem_of _ _ _ Hd).
  split; [intros [?|[?|[]]]|]; tauto.
Qed.

(** Whatever the visiting orders of the three loops, the paths come out in
    the same sorted arrangement, and so do the records. *)
Lemma ComputeDiff_visiting_order (A B : list FileHash)
    (ks kd kp ks' kd' kp' : list string) :
  range_order (build_map A) ks → range_order (build_map B) kd →
  range_order (path_set ks kd) kp →
  range_order (build_map A) ks' → range_order (build_map B) kd' →
  range_order (path_set ks' kd') kp' →
  ComputeDiff_visiting ks kd kp A B = ComputeDiff_visiting ks' kd' kp' A B.
Proof.
  intros Hs Hd Hp Hs' Hd' Hp'. unfold ComputeDiff_visiting.
  rewrite !collect_paths_id. f_equal. apply sort_Strings_proper.
  apply NoDup_Permutation.
  - by eapply range_order_NoDup.
  - by eapply range_order_NoDup.
  - intros path.
    rewrite (path_set_keys _ _ _ _ _ path Hs Hd Hp).
    by rewrite (path_set_keys _ _ _ _ _ path Hs' Hd' Hp').
Qed.

Lemma ComputeDiff_run_exec (A B : list FileHash) :
  ComputeDiff_run A B (ComputeDiff A B).
Proof. constructor; apply go_range_order. Qed.

Lemma ComputeDiff_run_unique (A B : list FileHash) (out : list Diff) :
  ComputeDiff_run A B out → out = ComputeDiff A B.
Proof.
  intros [ks kd kp Hs Hd Hp]. unfold ComputeDiff.
  apply ComputeDiff_visiting_order; try done; apply go_range_order.
Qed.

Lemma ComputeDiff_paths (A B : list FileHash) :
  ∃ kp, Path <$> ComputeDiff A B = sort_Strings kp ∧ NoDup kp ∧
        ∀ path, path ∈ kp ↔ path ∈ fh_Path <$> A ∨ path ∈ fh_Path <$> B.
Proof.
  eexists. unfold ComputeDiff, ComputeDiff_visiting.
  rewrite build_diffs_paths, collect_paths_id. split; [done|]. split.
  - eapply range_order_NoDup, go_range_order.
  - intros path.
    rewrite (path_set_keys (build_map A) (build_map B) _ _ _ path
               (go_range_order _) (go_range_order _) (go_range_order _)).
    by rewrite !build_map_lookup, !last_hash_is_Some.
Qed.

Lemma ComputeDiff_paths_sorted (A B : list FileHash) :
  StronglySorted str_lt (Path <$> ComputeDiff A B).
Proof.
  destruct (ComputeDiff_paths A B) as (kp & -> & ND & _).
  apply strictly_sorted; [apply sort_Strings_sorted|].
  by rewrite sort_Strings_perm.
Qed.

Lemma ComputeDiff_paths_union (A B : list FileHash) (path : string) :
  path ∈ Path <$> ComputeDiff A B ↔
  path ∈ fh_Path <$> A ∨ path ∈ fh_Path <$> B.
Proof.
  destruct (ComputeDiff_paths A B) as (kp & -> & _ & Hkp).
  by rewrite sort_Strings_perm.
Qed.

Lemma ComputeDiff_record (A B : list FileHash) (d : Diff) :
  d ∈ ComputeDiff A B →
  d = mkDiff (Path d) (default "" (last_hash (Path d) A))
        (default "" (last_hash (Path d) B))
        (classify (last_hash (Path d) A) (last_hash (Path d) B)).
Proof.
  unfold ComputeDiff, ComputeDiff_visiting. rewrite build_diffs_map.
  intros (path & -> & _)%list_elem_of_fmap.
  unfold diff_of. simpl. by rewrite !build_map_lookup.
Qed.

Lemma last_hash_Some_split (path hash : string) (l : list FileHash) :
  last_hash path l = Some hash ↔
  ∃ l1 l2, l = l1 ++ mkFileHash path hash :: l2 ∧ path ∉ fh_Path <$> l2.
Proof.
  split.
  - induction l as [|fh l IH] using rev_ind; [done|]. unfold last_hash in *.
    rewrite filter_app, filter_cons, filter_nil.
    destruct (decide (fh_Path fh = path)) as [E|N].
    + rewrite last_snoc. simpl. intros [= <-]. exists l, [].
      split; [destruct fh; simpl in *; by subst|]. apply not_elem_of_nil.
    + rewrite app_nil_r. intros (l1 & l2 & -> & Hl2)%IH.
      exists l1, (l2 ++ [fh]). split; [by rewrite <- app_assoc|].
      rewrite fmap_app, elem_of_app. simpl. rewrite list_elem_of_singleton.
      intros [?|?]; [done|by destruct N].
  - intros (l1 & l2 & -> & Hl2). unfold last_hash.
    rewrite filter_app, filter_cons. simpl.
    destruct (decide (path = path)) as [_|]; [|done].
    assert (filter (λ fh, fh_Path fh = path) l2 = []) as ->.
    { apply last_None. apply (fmap_None fh_Hash). by apply last_hash_None. }
    by rewrite last_snoc.
Qed.

(** The two cases of [TestComputeDiff]. *)
Example TestComputeDiff_match_and_missing :
  ComputeDiff [mkFileHash "foo.txt" "h1"; mkFileHash "bar.txt" "h2"]
              [mkFileHash "foo.txt" "h1"]
  = [mkDiff "bar.txt" "h2" "" MissingDestination;
     mkDiff "foo.txt" "h1" "h1" Match].
Proof. vm_compute. reflexivity. Qed.

Example TestComputeDiff_missing_source_and_mismatch :
  ComputeDiff [mkFileHash "a" "x"]
              [mkFileHash "a" "y"; mkFileHash "b" "z"]
  = [mkDiff "a" "x" "y" Mismatch; mkDiff "b" "" "z" MissingSource].
Proof. vm_compute. reflexivity. Qed.

(** A path listed twice on one side: one record, with the later hash. *)
Example ComputeDiff_repeated_path :
  ComputeDiff [mkFileHash "a" "old"; mkFileHash "b" "h"; mkFileHash "a" "new"]
              [mkFileHash "a" "new"; mkFileHash "b" "h"; mkFileHash "b" "k"]
  = [mkDiff "a" "new" "new" Match; mkDiff "b" "h" "k" Mismatch].
Proof. vm_compute. reflexivity. Qed.

(** ** Claims about [ComputeDiff] *)

(** C1. For inventories [A] (source) and [B] (destination) whose paths are
    distinct within each inventory, [ComputeDiff A B] holds exactly one record
    per path of the union of the two path sets, in strictly ascending
    byte-wise order of path; the status of a record is [MissingSource] iff its
    path is absent from [A], [MissingDestination] iff it is absent from [B],
    [Mismatch] iff it is in both with unequal hashes, and [Match] iff it is in
    both with equal hashes. *)
Theorem ComputeDiff_classifies_union (A B : list FileHash) :
  NoDup (fh_Path <$> A) → NoDup (fh_Path <$> B) →
  NoDup (Path <$> ComputeDiff A B) ∧
  (∀ path, path ∈ Path <$> ComputeDiff A B ↔
           path ∈ fh_Path <$> A ∨ path ∈ fh_Path <$> B) ∧
  StronglySorted str_lt (Path <$> ComputeDiff A B) ∧
  (∀ d, d ∈ ComputeDiff A B →
     (Status d = MissingSource ↔ Path d ∉ fh_Path <$> A) ∧
     (Status d = MissingDestination ↔ Path d ∉ fh_Path <$> B) ∧
     (Status d = Mismatch ↔
        ∃ hs hd, mkFileHash (Path d) hs ∈ A ∧ mkFileHash (Path d) hd ∈ B ∧
                 hs ≠ hd) ∧
     (Status d = Match ↔
        ∃ h, mkFileHash (Path d) h ∈ A ∧ mkFileHash (Path d) h ∈ B)).
Proof.
  intros NA NB.
  split; [apply strictly_sorted_NoDup, ComputeDiff_paths_sorted|].
  split; [apply ComputeDiff_paths_union|].
  split; [apply ComputeDiff_paths_sorted|].
  intros d Hd.
  assert (Path d ∈ fh_Path <$> A ∨ Path d ∈ fh_Path <$> B) as Hunion
    by (by apply ComputeDiff_paths_union, list_elem_of_fmap_2).
  rewrite (ComputeDiff_record A B d Hd). simpl.
  pose proof (last_hash_unique (Path d)) as U.
  rewrite <- !last_hash_None.
  rewrite <- !last_hash_is_Some in Hunion.
  destruct (last_hash (Path d) A) as [hs|] eqn:EA;
    destruct (last_hash (Path d) B) as [hd|] eqn:EB; simpl.
  - apply U in EA, EB; [|done..].
    assert (∀ h, mkFileHash (Path d) h ∈ A → h = hs) as UA.
    { intros h Hh. apply U in Hh; [|done].
      apply (U hs A NA) in EA. congruence. }
    assert (∀ h, mkFileHash (Path d) h ∈ B → h = hd) as UB.
    { intros h Hh. apply U in Hh; [|done].
      apply (U hd B NB) in EB. congruence. }
    destruct (decide (hs ≠ hd)) as [N|E].
    + repeat split; try done.
      * intros _. by exists hs, hd.
      * intros (h & HA & HB). apply UA in HA. apply UB in HB. congruence.
    + apply dec_stable in E. subst hd. repeat split; try done.
      * intros (h1 & h2 & HA & HB & N). apply UA in HA. apply UB in HB.
        congruence.
      * intros _. by exists hs.
  - repeat split; try done.
    + intros (h1 & h2 & _ & HB & _). apply U in HB; [|done]. congruence.
    + intros (h & _ & HB). apply U in HB; [|done]. congruence.
  - repeat split; try done.
    + intros (h1 & h2 & HA & _). apply U in HA; [|done]. congruence.
    + intros (h & HA & _). apply U in HA; [|done]. congruence.
  - destruct Hunion as [[? ?]|[? ?]]; done.
Qed.

Lemma ComputeDiff_classifies_union_witness :
  let A := [mkFileHash "foo.txt" "h1"; mkFileHash "bar.txt" "h2"] in
  let B := [mkFileHash "foo.txt" "h1"] in
  NoDup (Path <$> ComputeDiff A B) ∧
  (∀ path, path ∈ Path <$> ComputeDiff A B ↔
           path ∈ fh_Path <$> A ∨ path ∈ fh_Path <$> B) ∧
  StronglySorted str_lt (Path <$> ComputeDiff A B) ∧
  (∀ d, d ∈ ComputeDiff A B →
     (Status d = MissingSource ↔ Path d ∉ fh_Path <$> A) ∧
     (Status d = MissingDestination ↔ Path d ∉ fh_Path <$> B) ∧
     (Status d = Mismatch ↔
        ∃ hs hd, mkFileHash (Path d) hs ∈ A ∧ mkFileHash (Path d) hd ∈ B ∧
                 hs ≠ hd) ∧
     (Status d = Match ↔
        ∃ h, mkFileHash (Path d) h ∈ A ∧ mkFileHash (Path d) h ∈ B)).
Proof.
  intros A B. apply (ComputeDiff_classifies_union A B).
  - apply (bool_decide_unpack _). vm_compute. exact I.
  - apply (bool_decide_unpack _). vm_compute. exact I.
Defined.

(** C7. [ComputeDiff] does not depend on the order of its inputs and is
    deterministic: with paths distinct within each inventory, for every
    permutation [A'] of [A] and [B'] of [B], every run on [(A', B')], whatever
    order the map iterations take, returns the list returned for [(A, B)]
    (with [A' = A] and [B' = B]: two runs on the same input agree). *)
Theorem ComputeDiff_order_independent (A B A' B' : list FileHash) :
  NoDup (fh_Path <$> A) → NoDup (fh_Path <$> B) →
  A ≡ₚ A' → B ≡ₚ B' →
  ComputeDiff A' B' = ComputeDiff A B ∧
  (∀ out out', ComputeDiff_run A B out → ComputeDiff_run A' B' out' →
               out' = out).
Proof.
  intros NA NB PA PB.
  assert (build_map A = build_map A') as EA by (by apply build_map_perm).
  assert (build_map B = build_map B') as EB by (by apply build_map_perm).
  assert (ComputeDiff A' B' = ComputeDiff A B) as E.
  { unfold ComputeDiff, ComputeDiff_visiting. by rewrite EA, EB. }
  split; [done|]. intros out out' R R'.
  apply ComputeDiff_run_unique in R, R'. congruence.
Qed.

Lemma ComputeDiff_order_independent_witness :
  let A := [mkFileHash "foo.txt" "h1"; mkFileHash "bar.txt" "h2"] in
  let A' := [mkFileHash "bar.txt" "h2"; mkFileHash "foo.txt" "h1"] in
  let B := [mkFileHash "foo.txt" "h1"; mkFileHash "z" "h3"] in
  let B' := [mkFileHash "z" "h3"; mkFileHash "foo.txt" "h1"] in
  ComputeDiff A' B' = ComputeDiff A B ∧
  (∀ out out', ComputeDiff_run A B out → ComputeDiff_run A' B' out' →
               out' = out).
Proof.
  intros A A' B B'. apply (ComputeDiff_order_independent A B A' B').
  - apply (bool_decide_unpack _). vm_compute. exact I.
  - apply (bool_decide_unpack _). vm_compute. exact I.
  - apply perm_swap.
  - apply perm_swap.
Defined.

(** C10. A path that occurs several times in one input list still gets
    exactly one record, and the record is built from the last occurrence of
    the path in that list.  For any two lists: the paths of the result are
    distinct and are the paths of either list; the hashes of a record are
    those of the last occurrences of its path ([""] on a side that has none);
    its status is [MissingSource] iff the source list has no occurrence,
    [MissingDestination] iff the destination list has none, [Mismatch] iff the
    last occurrences on the two sides carry different hashes, [Match] iff they
    carry the same hash.  The last occurrence of a path in a list is the
    record with this path that no record with this path follows. *)
Theorem ComputeDiff_last_occurrence (A B : list FileHash) :
  NoDup (Path <$> ComputeDiff A B) ∧
  (∀ path, path ∈ Path <$> ComputeDiff A B ↔
           path ∈ fh_Path <$> A ∨ path ∈ fh_Path <$> B) ∧
  (∀ d, d ∈ ComputeDiff A B →
     SrcHash d = default "" (last_hash (Path d) A) ∧
     DstHash d = default "" (last_hash (Path d) B) ∧
     (Status d = MissingSource ↔ last_hash (Path d) A = None) ∧
     (Status d = MissingDestination ↔ last_hash (Path d) B = None) ∧
     (Status d = Mismatch ↔
        ∃ hs hd, last_hash (Path d) A = Some hs ∧
                 last_hash (Path d) B = Some hd ∧ hs ≠ hd) ∧
     (Status d = Match ↔
        ∃ h, last_hash (Path d) A = Some h ∧ last_hash (Path d) B = Some h)) ∧
  (∀ (l : list FileHash) path hash,
     last_hash path l = Some hash ↔
     ∃ l1 l2, l = l1 ++ mkFileHash path hash :: l2 ∧ path ∉ fh_Path <$> l2) ∧
  (∀ (l : list FileHash) path,
     last_hash path l = None ↔ path ∉ fh_Path <$> l) ∧
  (∀ l1 l2 path hash, A = l1 ++ mkFileHash path hash :: l2 →
     path ∉ fh_Path <$> l2 →
     ∃ d, d ∈ ComputeDiff A B ∧ Path d = path ∧ SrcHash d = hash ∧
          Status d ≠ MissingSource) ∧
  (∀ l1 l2 path hash, B = l1 ++ mkFileHash path hash :: l2 →
     path ∉ fh_Path <$> l2 →
     ∃ d, d ∈ ComputeDiff A B ∧ Path d = path ∧ DstHash d = hash ∧
          Status d ≠ MissingDestination ∧
          (Status d = Match ↔ last_hash path A = Some hash)).
Proof.
  split; [apply strictly_sorted_NoDup, ComputeDiff_paths_sorted|].
  split; [apply ComputeDiff_paths_union|].
  split.
  { intros d Hd.
    assert (is_Some (last_hash (Path d) A) ∨ is_Some (last_hash (Path d) B))
      as Hunion.
    { rewrite !last_hash_is_Some.
      by apply ComputeDiff_paths_union, list_elem_of_fmap_2. }
    rewrite (ComputeDiff_record A B d Hd). simpl.
    destruct (last_hash (Path d) A) as [hs|], (last_hash (Path d) B) as [hd|];
      simpl.
    - destruct (decide (hs ≠ hd)) as [N|E].
      + repeat split; try done.
        * intros _. by exists hs, hd.
        * intros (h & [= ->] & [= ->]). done.
      + apply dec_stable in E. subst hd. repeat split; try done.
        * intros (h1 & h2 & [= ->] & [= ->] & N). done.
        * intros _. by exists hs.
    - repeat split; try done.
      + by intros (h1 & h2 & _ & [=] & _).
      + by intros (h & _ & [=]).
    - repeat split; try done.
      + by intros (h1 & h2 & [=] & _).
      + by intros (h & [=] & _).
    - destruct Hunion as [[? [=]]|[? [=]]]. }
  split; [intros l path hash; apply last_hash_Some_split|].
  split; [intros l path; apply last_hash_None|].
  split.
  - intros l1 l2 path hash EA Hl2.
    assert (last_hash path A = Some hash) as L
      by (apply last_hash_Some_split; eauto).
    assert (path ∈ Path <$> ComputeDiff A B) as Hin.
    { apply ComputeDiff_paths_union. left. apply last_hash_is_Some. eauto. }
    apply list_elem_of_fmap in Hin as (d & -> & Hd). exists d.
    pose proof (ComputeDiff_record A B d Hd) as Hrec.
    rewrite L in Hrec. split; [done|]. rewrite Hrec. simpl.
    repeat split; try done.
    destruct (last_hash (Path d) B); simpl; [|done]. by case_decide.
  - intros l1 l2 path hash EB Hl2.
    assert (last_hash path B = Some hash) as L
      by (apply last_hash_Some_split; eauto).
    assert (path ∈ Path <$> ComputeDiff A B) as Hin.
    { apply ComputeDiff_paths_union. right. apply last_hash_is_Some. eauto. }
    apply list_elem_of_fmap in Hin as (d & -> & Hd). exists d.
    pose proof (ComputeDiff_record A B d Hd) as Hrec.
    rewrite L in Hrec. split; [done|]. rewrite Hrec. simpl.
    repeat split; try done.
    + destruct (last_hash (Path d) A); simpl; [|done]. by case_decide.
    + destruct (last_hash (Path d) A) as [hs|]; simpl; [|done].
      destruct (decide (hs ≠ hash)) as [N|E]; [done|]. intros _.
      apply dec_stable in E. by subst.
    + intros E. rewrite E. simpl. by rewrite decide_False by (by intros ?).
Qed.

(** ** The session: helper lemmas *)

Lemma slice_at_Some {A} (s : list A) (i : Z) (x : A) :
  slice_at s i = Some x ↔ (0 ≤ i)%Z ∧ s !! Z.to_nat i = Some x.
Proof.
  unfold slice_at. case_decide as Hi.
  - split; [by intros ?|by intros [_ ?]].
  - split; [done|by intros [? _]].
Qed.

Lemma slice_at_lt {A} (s : list A) (i : Z) (x : A) :
  slice_at s i = Some x → (0 ≤ i < Z.of_nat (length s))%Z.
Proof.
  intros [Hi Hx]%slice_at_Some. apply lookup_lt_Some in Hx. lia.
Qed.

Lemma slice_at_insert_eq {A} (s : list A) (i : Z) (x y : A) :
  slice_at s i = Some x → slice_at (<[Z.to_nat i := y]> s) i = Some y.
Proof.
  intros [Hi Hx]%slice_at_Some. apply slice_at_Some. split; [done|].
  apply list_lookup_insert_eq. by eapply lookup_lt_Some.
Qed.

Lemma slice_at_insert_ne {A} (s : list A) (i j : Z) (y : A) :
  (0 ≤ i)%Z → i ≠ j → slice_at (<[Z.to_nat i := y]> s) j = slice_at s j.
Proof.
  intros Hi N. unfold slice_at. case_decide; [|done].
  apply list_lookup_insert_ne. lia.
Qed.

Lemma patch_done_length (path srcHash : string) (ds : list Diff) :
  length (patch_done path srcHash ds) = length ds.
Proof.
  induction ds as [|d ds IH]; simpl; [done|].
  case_decide; simpl; by rewrite ?IH.
Qed.

(** The loop either finds no record with the path and changes nothing, or
    rewrites the first such record and nothing else. *)
Lemma patch_done_cases (path srcHash : string) (ds : list Diff) :
  ((path ∉ Path <$> ds) ∧ patch_done path srcHash ds = ds) ∨
  (∃ i d, ds !! i = Some d ∧ Path d = path ∧
          (∀ j d', (j < i)%nat → ds !! j = Some d' → Path d' ≠ path) ∧
          patch_done path srcHash ds
          = <[i := mkDiff path (SrcHash d) srcHash Match]> ds).
Proof.
  induction ds as [|d ds IH]; simpl.
  - left. split; [apply not_elem_of_nil|done].
  - case_decide as E.
    + right. exists 0%nat, d. simpl. rewrite E. repeat split; try done.
      intros j d' Hj. lia.
    + destruct IH as [[Hnot ->]|(i & d0 & Hi & Hp & Hfirst & ->)].
      * left. split; [|done]. rewrite not_elem_of_cons. done.
      * right. exists (S i), d0. simpl. repeat split; try done.
        intros [|j] d' Hj; simpl; [by intros [= <-]|].
        apply Hfirst. lia.
Qed.

Lemma patch_done_first (path srcHash : string) (ds : list Diff) (i : nat) (d : Diff) :
  ds !! i = Some d → Path d = path →
  (∀ j d', (j < i)%nat → ds !! j = Some d' → Path d' ≠ path) →
  patch_done path srcHash ds = <[i := mkDiff path (SrcHash d) srcHash Match]> ds.
Proof.
  intros Hi Hp Hfirst.
  destruct (patch_done_cases path srcHash ds)
    as [[Hnot _]|(i' & d0 & Hi' & Hp' & Hfirst' & ->)].
  - destruct Hnot. rewrite <- Hp. apply list_elem_of_fmap_2.
    by eapply list_elem_of_lookup_2.
  - assert (i = i') as <-.
    { destruct (Nat.lt_trichotomy i i') as [L|[E|G]]; [|done|].
      - by destruct (Hfirst' i d L Hi).
      - by destruct (Hfirst i' d0 G Hi'). }
    congruence.
Qed.

Lemma patch_done_other (path srcHash : string) (ds : list Diff) (i : nat) (d : Diff) :
  ds !! i = Some d → Path d ≠ path → patch_done path srcHash ds !! i = Some d.
Proof.
  intros Hi N.
  destruct (patch_done_cases path srcHash ds)
    as [[_ ->]|(i' & d0 & Hi' & Hp' & _ & ->)]; [done|].
  rewrite list_lookup_insert_ne; [done|]. intros ->. congruence.
Qed.

Lemma patch_done_keeps (path srcHash : string) (ds : list Diff) (i : nat) (d : Diff) :
  ds !! i = Some d →
  ∃ d', patch_done path srcHash ds !! i = Some d' ∧
        Path d' = Path d ∧ SrcHash d' = SrcHash d.
Proof.
  intros Hi.
  destruct (patch_done_cases path srcHash ds)
    as [[_ ->]|(i' & d0 & Hi' & Hp' & _ & ->)]; [by exists d|].
  destruct (decide (i' = i)) as [->|N].
  - rewrite list_lookup_insert_eq by (by eapply lookup_lt_Some).
    eexists. split; [done|]. simpl. split; congruence.
  - rewrite list_lookup_insert_ne by done. by exists d.
Qed.

Lemma patch_done_one_change (path srcHash : string) (ds : list Diff) (i j : nat) :
  patch_done path srcHash ds !! i ≠ ds !! i →
  patch_done path srcHash ds !! j ≠ ds !! j → i = j.
Proof.
  destruct (patch_done_cases path srcHash ds)
    as [[_ ->]|(i' & d0 & Hi' & Hp' & _ & ->)]; [done|].
  intros Ci Cj.
  destruct (decide (i' = i)) as [<-|Ni];
    [|by rewrite list_lookup_insert_ne in Ci].
  destruct (decide (i' = j)) as [<-|Nj];
    [done|by rewrite list_lookup_insert_ne in Cj].
Qed.

(** ** Claims about the completion events *)

(** C2, as stated, fails: after a successful done event the destination hash
    of the record is the hash carried by the event, which need not be the
    source hash the record holds (here the source file changed after the
    scan: the record keeps ["x"], the event carries ["z"]). *)
Lemma sync_done_fresh_hash_differs :
  let m := mkModel [mkDirectoryPair "src" "dst"] 0
             [[mkDiff "a" "x" "y" Mismatch]] false {["a"]} in
  let m' := mkModel [mkDirectoryPair "src" "dst"] 0
              [[mkDiff "a" "x" "z" Match]] false ∅ in
  Update m (syncDoneMsg 0 "a" None "z") = Some (m', None) ∧
  slice_at (Diffs m') (Index m') = Some [mkDiff "a" "x" "z" Match] ∧
  DstHash (mkDiff "a" "x" "z" Match) ≠ SrcHash (mkDiff "a" "x" "z" Match).
Proof. repeat split. done. Qed.

(** C2, amended. For a successful done event for the current pair whose path
    [P] occurs in the current diff list, the first record with path [P] (the
    only one when paths are distinct) has afterwards status [Match] and, as
    destination hash, the hash carried by the event; its path and source hash
    are kept, so the two hashes of the record agree when the event carries the
    source hash of the record.  [P] is no longer in flight, and the other
    paths are in flight exactly as before. *)
Theorem sync_done_success_patches (m : Model) (P srcHash : string)
    (ds : list Diff) (i : nat) (d : Diff) :
  slice_at (Diffs m) (Index m) = Some ds →
  ds !! i = Some d → Path d = P →
  (∀ j d', (j < i)%nat → ds !! j = Some d' → Path d' ≠ P) →
  ∃ m' ds',
    Update m (syncDoneMsg (Index m) P None srcHash) = Some (m', None) ∧
    slice_at (Diffs m') (Index m') = Some ds' ∧
    ds' !! i = Some (mkDiff P (SrcHash d) srcHash Match) ∧
    (srcHash = SrcHash d →
     ds' !! i = Some (mkDiff P (SrcHash d) (SrcHash d) Match)) ∧
    Syncing m' = Syncing m ∖ {[P]} ∧
    (P ∉ Syncing m') ∧
    (∀ q, q ≠ P → q ∈ Syncing m' ↔ q ∈ Syncing m).
Proof.
  intros Hds Hi HP Hfirst. unfold Update.
  rewrite decide_True by done. simpl. rewrite Hds.
  eexists _, (patch_done P srcHash ds). split; [done|]. simpl.
  split; [by eapply slice_at_insert_eq|].
  rewrite (patch_done_first P srcHash ds i d) by done.
  rewrite list_lookup_insert_eq by (by eapply lookup_lt_Some).
  split; [done|]. split; [by intros ->|]. split; [done|].
  split.
  - rewrite elem_of_difference, elem_of_singleton. tauto.
  - intros q Nq. rewrite elem_of_difference, elem_of_singleton. tauto.
Qed.

Lemma sync_done_success_patches_witness :
  let m := mkModel [mkDirectoryPair "src" "dst"] 0
             [[mkDiff "a" "x" "y" Mismatch; mkDiff "b" "h" "" MissingDestination]]
             false {["a"; "b"]} in
  ∃ m' ds',
    Update m (syncDoneMsg (Index m) "b" None "h") = Some (m', None) ∧
    slice_at (Diffs m') (Index m') = Some ds' ∧
    ds' !! 1%nat = Some (mkDiff "b" "h" "h" Match) ∧
    ("h" = "h" → ds' !! 1%nat = Some (mkDiff "b" "h" "h" Match)) ∧
    Syncing m' = Syncing m ∖ {["b"]} ∧
    ("b" ∉ Syncing m') ∧
    (∀ q, q ≠ "b" → q ∈ Syncing m' ↔ q ∈ Syncing m).
Proof.
  intros m.
  apply (sync_done_success_patches m "b" "h"
           [mkDiff "a" "x" "y" Mismatch; mkDiff "b" "h" "" MissingDestination]
           1%nat (mkDiff "b" "h" "" MissingDestination)).
  - reflexivity.
  - reflexivity.
  - reflexivity.
  - intros j d' Hj. destruct j as [|j]; [|lia]. simpl. by intros [= <-].
Defined.

(** C3. A failed done event for the current pair leaves the pair list, the
    index, every diff list (so the record of the path, field by field) and the
    loading flag as they were; its only effect is that the path leaves the
    in-flight set. *)
Theorem sync_done_failure_only_clears (m : Model) (P : string) (e : error)
    (srcHash : string) :
  Update m (syncDoneMsg (Index m) P (Some e) srcHash)
  = Some (mkModel (Pairs m) (Index m) (Diffs m) (Loading m)
            (Syncing m ∖ {[P]}), None).
Proof. unfold Update. by rewrite decide_True. Qed.

(** C4. A start or done event for a pair other than the current one leaves
    the whole session as it is, and issues no command. *)
Theorem sync_event_other_pair_ignored (m : Model) (idx : Z) (P : string) :
  idx ≠ Index m →
  Update m (syncStartMsg idx P) = Some (m, None) ∧
  (∀ err srcHash, Update m (syncDoneMsg idx P err srcHash) = Some (m, None)).
Proof.
  intros N. unfold Update. split; [|intros err srcHash]; by case_decide.
Qed.

Lemma sync_event_other_pair_ignored_witness :
  let m := mkModel [mkDirectoryPair "s0" "d0"; mkDirectoryPair "s1" "d1"] 1
             [[mkDiff "a" "x" "y" Mismatch]; [mkDiff "a" "x" "" MissingDestination]]
             false {["a"]} in
  Update m (syncStartMsg 0 "a") = Some (m, None) ∧
  (∀ err srcHash, Update m (syncDoneMsg 0 "a" err srcHash) = Some (m, None)).
Proof. intros m. apply (sync_event_other_pair_ignored m 0 "a"). done. Defined.

(** C6. A successful done event for the current pair changes at most one
    record, one whose path is that of the event, and of it only the
    destination hash and the status: every record keeps its path and source
    hash, a record with another path is unchanged, at most one position of the
    current diff list differs, the diff lists of the other pairs, the pair
    list, the index and the loading flag are unchanged. *)
Theorem sync_done_success_frame (m : Model) (P srcHash : string)
    (ds : list Diff) :
  slice_at (Diffs m) (Index m) = Some ds →
  ∃ m' ds',
    Update m (syncDoneMsg (Index m) P None srcHash) = Some (m', None) ∧
    Pairs m' = Pairs m ∧ Index m' = Index m ∧ Loading m' = Loading m ∧
    length (Diffs m') = length (Diffs m) ∧
    (∀ j, j ≠ Index m → slice_at (Diffs m') j = slice_at (Diffs m) j) ∧
    slice_at (Diffs m') (Index m) = Some ds' ∧
    length ds' = length ds ∧
    (∀ i d, ds !! i = Some d →
       ∃ d', ds' !! i = Some d' ∧ Path d' = Path d ∧ SrcHash d' = SrcHash d ∧
             (Path d ≠ P → d' = d)) ∧
    (∀ i j, ds' !! i ≠ ds !! i → ds' !! j ≠ ds !! j → i = j).
Proof.
  intros Hds. unfold Update. rewrite decide_True by done. simpl. rewrite Hds.
  pose proof (slice_at_lt _ _ _ Hds) as Hrange.
  eexists _, (patch_done P srcHash ds). split; [done|]. simpl.
  repeat split; try done.
  - apply length_insert.
  - intros j Nj. apply slice_at_insert_ne; [lia|done].
  - by eapply slice_at_insert_eq.
  - apply patch_done_length.
  - intros i d Hi.
    destruct (patch_done_keeps P srcHash ds i d Hi) as (d' & Hd' & HP & HS).
    exists d'. repeat split; try done. intros N.
    rewrite (patch_done_other P srcHash ds i d Hi N) in Hd'. congruence.
  - apply patch_done_one_change.
Qed.

Lemma sync_done_success_frame_witness :
  let m := mkModel [mkDirectoryPair "s0" "d0"; mkDirectoryPair "s1" "d1"] 1
             [[mkDiff "a" "x" "y" Mismatch];
              [mkDiff "a" "x" "" MissingDestination; mkDiff "b" "h" "h" Match]]
             false {["a"]} in
  let ds := [mkDiff "a" "x" "" MissingDestination; mkDiff "b" "h" "h" Match] in
  ∃ m' ds',
    Update m (syncDoneMsg (Index m) "a" None "x") = Some (m', None) ∧
    Pairs m' = Pairs m ∧ Index m' = Index m ∧ Loading m' = Loading m ∧
    length (Diffs m') = length (Diffs m) ∧
    (∀ j, j ≠ Index m → slice_at (Diffs m') j = slice_at (Diffs m) j) ∧
    slice_at (Diffs m') (Index m) = Some ds' ∧
    length ds' = length ds ∧
    (∀ i d, ds !! i = Some d →
       ∃ d', ds' !! i = Some d' ∧ Path d' = Path d ∧ SrcHash d' = SrcHash d ∧
             (Path d ≠ "a" → d' = d)) ∧
    (∀ i j, ds' !! i ≠ ds !! i → ds' !! j ≠ ds !! j → i = j).
Proof.
  intros m ds. apply (sync_done_success_frame m "a" "x" ds). reflexivity.
Defined.

(** ** Claims about the key events *)

Lemma sync_cmds_acc (idx : Z) (pr : DirectoryPair) (ds : list Diff)
    (acc : list Cmd) :
  foldl (λ cmds d,
           if decide (needs_repair d)
           then (cmds ++ [syncStartCmd idx (Path d)])
                  ++ [syncFileCmd idx (Path d) pr]
           else cmds) acc ds
  = acc ++ (filter needs_repair ds ≫=
              λ d, [syncStartCmd idx (Path d); syncFileCmd idx (Path d) pr]).
Proof.
  revert acc. induction ds as [|d ds IH]; intros acc; simpl.
  - by rewrite app_nil_r.
  - rewrite IH, filter_cons. destruct (decide (needs_repair d)); [|done].
    simpl. by rewrite <- !app_assoc.
Qed.

Lemma sync_cmds_filter (idx : Z) (pr : DirectoryPair) (ds : list Diff) :
  sync_cmds idx pr ds
  = filter needs_repair ds ≫=
      λ d, [syncStartCmd idx (Path d); syncFileCmd idx (Path d) pr].
Proof. unfold sync_cmds. by rewrite sync_cmds_acc. Qed.

(** C5. On a sync request, the commands issued are a start command and a
    repair command for each record of the current diff list whose status is
    [MissingDestination] or [Mismatch], in the order of the list, and nothing
    else: a path gets a start command, and a repair command, iff it is the
    path of such a record; a record whose status is [MissingSource] or [Match]
    is not among the selected ones. *)
Theorem sync_request_selects (m : Model) (pr : DirectoryPair) (ds : list Diff) :
  slice_at (Pairs m) (Index m) = Some pr →
  slice_at (Diffs m) (Index m) = Some ds →
  ∃ cmds,
    Update m (KeyMsg "s") = Some (m, Some (Batch cmds)) ∧
    cmds = (filter needs_repair ds ≫=
              λ d, [syncStartCmd (Index m) (Path d);
                    syncFileCmd (Index m) (Path d) pr]) ∧
    (∀ path, syncStartCmd (Index m) path ∈ cmds ↔
             ∃ d, d ∈ ds ∧ Path d = path ∧
                  (Status d = MissingDestination ∨ Status d = Mismatch)) ∧
    (∀ path, syncFileCmd (Index m) path pr ∈ cmds ↔
             ∃ d, d ∈ ds ∧ Path d = path ∧
                  (Status d = MissingDestination ∨ Status d = Mismatch)) ∧
    (∀ c, c ∈ cmds →
          ∃ d, d ∈ ds ∧ (c = syncStartCmd (Index m) (Path d) ∨
                         c = syncFileCmd (Index m) (Path d) pr)) ∧
    (∀ d, d ∈ ds → Status d = MissingSource ∨ Status d = Match →
          d ∉ filter needs_repair ds).
Proof.
  intros Hpr Hds. eexists. split.
  { unfold Update. simpl. rewrite Hpr, Hds. by rewrite sync_cmds_filter. }
  split; [done|].
  assert (∀ c, c ∈ (filter needs_repair ds ≫=
                      λ d, [syncStartCmd (Index m) (Path d);
                            syncFileCmd (Index m) (Path d) pr]) ↔
               ∃ d, d ∈ ds ∧ needs_repair d ∧
                    (c = syncStartCmd (Index m) (Path d) ∨
                     c = syncFileCmd (Index m) (Path d) pr)) as Hmem.
  { intros c. rewrite list_elem_of_bind. split.
    - intros (d & Hc & [Hrep Hd]%list_elem_of_filter). exists d.
      rewrite !elem_of_cons in Hc.
      destruct Hc as [->|[->|Hc]]; [tauto|tauto|by apply not_elem_of_nil in Hc].
    - intros (d & Hd & Hrep & Hc). exists d.
      split; [|by apply list_elem_of_filter].
      rewrite !elem_of_cons. tauto. }
  split; [|split; [|split]].
  - intros path. rewrite Hmem. split.
    + intros (d & Hd & Hrep & [[= ->]|[=]]). by exists d.
    + intros (d & Hd & <- & Hrep). exists d. split; [done|]. split; [done|]. by left.
  - intros path. rewrite Hmem. split.
    + intros (d & Hd & Hrep & [[=]|[= ->]]). by exists d.
    + intros (d & Hd & <- & Hrep). exists d. split; [done|]. split; [done|]. by right.
  - intros c (d & Hd & _ & Hc)%Hmem. by exists d.
  - intros d Hd Hst [Hrep _]%list_elem_of_filter.
    unfold needs_repair in Hrep.
    destruct Hst as [E|E], Hrep as [E'|E']; congruence.
Qed.

Lemma sync_request_selects_witness :
  let pr := mkDirectoryPair "src" "dst" in
  let ds := [mkDiff "a" "x" "y" Mismatch; mkDiff "b" "h" "h" Match;
             mkDiff "c" "" "k" MissingSource;
             mkDiff "d" "u" "" MissingDestination] in
  let m := mkModel [pr] 0 [ds] false ∅ in
  ∃ cmds,
    Update m (KeyMsg "s") = Some (m, Some (Batch cmds)) ∧
    cmds = (filter needs_repair ds ≫=
              λ d, [syncStartCmd (Index m) (Path d);
                    syncFileCmd (Index m) (Path d) pr]) ∧
    (∀ path, syncStartCmd (Index m) path ∈ cmds ↔
             ∃ d, d ∈ ds ∧ Path d = path ∧
                  (Status d = MissingDestination ∨ Status d = Mismatch)) ∧
    (∀ path, syncFileCmd (Index m) path pr ∈ cmds ↔
             ∃ d, d ∈ ds ∧ Path d = path ∧
                  (Status d = MissingDestination ∨ Status d = Mismatch)) ∧
    (∀ c, c ∈ cmds →
          ∃ d, d ∈ ds ∧ (c = syncStartCmd (Index m) (Path d) ∨
                         c = syncFileCmd (Index m) (Path d) pr)) ∧
    (∀ d, d ∈ ds → Status d = MissingSource ∨ Status d = Match →
          d ∉ filter needs_repair ds).
Proof.
  intros pr ds m. apply (sync_request_selects m pr ds); reflexivity.
Defined.

Example sync_request_commands :
  let pr := mkDirectoryPair "src" "dst" in
  let ds := [mkDiff "a" "x" "y" Mismatch; mkDiff "b" "h" "h" Match;
             mkDiff "c" "" "k" MissingSource;
             mkDiff "d" "u" "" MissingDestination] in
  let m := mkModel [pr] 0 [ds] false ∅ in
  Update m (KeyMsg "s")
  = Some (m, Some (Batch [syncStartCmd 0 "a"; syncFileCmd 0 "a" pr;
                          syncStartCmd 0 "d"; syncFileCmd 0 "d" pr])).
Proof. reflexivity. Qed.

(** The index stays an index into the pair list. *)
Lemma NewModel_Index_in_range (scan_source scan_destination : string → list FileHash + error)
    (pairs : list DirectoryPair) :
  (1 ≤ length pairs)%nat →
  Index_in_range (NewModel scan_source scan_destination pairs).
Proof. unfold Index_in_range. simpl. lia. Qed.

Lemma Update_Index_in_range (m m' : Model) (msg : Msg) (c : option Cmd) :
  Index_in_range m → Update m msg = Some (m', c) →
  Pairs m' = Pairs m ∧ Index_in_range m'.
Proof.
  unfold Index_in_range, Update. intros Hr HU.
  destruct msg as [diffs|idx path|idx path err srcHash|key|].
  - by injection HU as <- <-.
  - case_decide; by injection HU as <- <-.
  - case_decide; [|by injection HU as <- <-].
    destruct err; [by injection HU as <- <-|].
    simpl in HU. destruct (slice_at (Diffs m) idx); [|done].
    by injection HU as <- <-.
  - repeat case_decide; try (by injection HU as <- <-).
    + injection HU as <- <-. simpl. split; [done|lia].
    + injection HU as <- <-. simpl. split; [done|lia].
    + destruct (slice_at (Pairs m) (Index m)); [|done].
      destruct (slice_at (Diffs m) (Index m)); [|done].
      by injection HU as <- <-.
  - by injection HU as <- <-.
Qed.

Lemma run_Index_in_range (msgs : list Msg) (m m' : Model) :
  Index_in_range m → run m msgs = Some m' →
  Pairs m' = Pairs m ∧ Index_in_range m'.
Proof.
  revert m. induction msgs as [|msg msgs IH]; intros m Hr; simpl.
  - by intros [= <-].
  - destruct (Update m msg) as [[m1 c]|] eqn:HU; [|done]. intros Hrun.
    destruct (Update_Index_in_range m m1 msg c Hr HU) as [HP Hr1].
    destruct (IH m1 Hr1 Hrun) as [HP' Hr']. split; [congruence|done].
Qed.

Lemma Update_tab (m : Model) :
  Index_in_range m →
  Update m (KeyMsg "tab")
  = Some (set_Index m ((Index m + 1) `mod` Z.of_nat (length (Pairs m)))%Z, None).
Proof.
  unfold Index_in_range. intros Hr. unfold Update. simpl.
  case_decide as Hlt.
  - by rewrite Z.mod_small by lia.
  - replace (Index m + 1)%Z with (Z.of_nat (length (Pairs m))) by lia.
    by rewrite Z.mod_same by lia.
Qed.

Lemma run_tabs (k : nat) (m : Model) :
  Index_in_range m →
  run m (replicate k (KeyMsg "tab"))
  = Some (set_Index m
            ((Index m + Z.of_nat k) `mod` Z.of_nat (length (Pairs m)))%Z).
Proof.
  revert m. induction k as [|k IH]; intros m Hr.
  - simpl. unfold Index_in_range in Hr.
    rewrite Z.add_0_r, Z.mod_small by done. by destruct m.
  - cbn [replicate run]. rewrite Update_tab by done.
    rewrite IH.
    + unfold set_Index. cbn [Pairs Index Diffs Loading Syncing]. do 2 f_equal.
      rewrite Zplus_mod_idemp_l. f_equal. lia.
    + unfold Index_in_range in *. unfold set_Index.
      cbn [Pairs Index Diffs Loading Syncing]. apply Z.mod_pos_bound. lia.
Qed.

(** C9. In a session with at least one pair (whose index is an index into the
    pair list, as in every session the program reaches), a pair-switch event
    moves the index to [(index + 1) mod pair_count] and changes nothing else;
    as many pair-switch events as there are pairs bring the session back to
    where it was. *)
Theorem pair_switch_cycles (m : Model) :
  (1 ≤ length (Pairs m))%nat → Index_in_range m →
  Update m (KeyMsg "tab")
  = Some (mkModel (Pairs m)
            ((Index m + 1) `mod` Z.of_nat (length (Pairs m)))%Z
            (Diffs m) (Loading m) (Syncing m), None) ∧
  run m (replicate (length (Pairs m)) (KeyMsg "tab")) = Some m.
Proof.
  intros Hn Hr. split; [by apply Update_tab|].
  rewrite run_tabs by done. unfold Index_in_range in Hr.
  rewrite <- (Z.mul_1_l (Z.of_nat (length (Pairs m)))) at 1.
  rewrite Z.mod_add by lia. rewrite Z.mod_small by done. by destruct m.
Qed.

Lemma pair_switch_cycles_witness :
  let m := mkModel [mkDirectoryPair "s0" "d0"; mkDirectoryPair "s1" "d1";
                    mkDirectoryPair "s2" "d2"] 2
             [[]; [mkDiff "a" "x" "y" Mismatch]; []] true {["a"]} in
  Update m (KeyMsg "tab")
  = Some (mkModel (Pairs m)
            ((Index m + 1) `mod` Z.of_nat (length (Pairs m)))%Z
            (Diffs m) (Loading m) (Syncing m), None) ∧
  run m (replicate (length (Pairs m)) (KeyMsg "tab")) = Some m.
Proof.
  intros m. apply (pair_switch_cycles m).
  - simpl. lia.
  - unfold Index_in_range. simpl. lia.
Defined.

(** ** Claims about the inventory producers *)






(** The run of [TestListRemote]: [ExecCommand] is replaced by a command that
    prints two lines. *)
Example TestListRemote :
  ListRemote
    (λ _ _, (None, "aa111 fileA.txt" +:+ LF +:+ "bb222 sub/fileB.log" +:+ LF))
    ScanLines_short Fields_ascii "dummyHost:/some/path"
  = inl [mkFileHash "fileA.txt" "aa111"; mkFileHash "sub/fileB.log" "bb222"].
Proof. vm_compute. reflexivity. Qed.




(** A walk without failure lists every file, directories left out. *)
Example ListLocal_complete :
  ListLocal
    (λ _, [mkVisit None true (inl ".") None (inl "");
           mkVisit None false (inl "a.txt") None (inl "h1");
           mkVisit None true (inl "subdir") None (inl "");
           mkVisit None false (inl "subdir/binary.bin") None (inl "h2")])
    "/tmp/x/"
  = inl [mkFileHash "a.txt" "h1"; mkFileHash "subdir/binary.bin" "h2"].
Proof. reflexivity. Qed.

(** * Further properties *)

(** ** [ComputeDiff] *)

Lemma ComputeDiff_as_map (A B : list FileHash) :
  ComputeDiff A B
  = diff_of (build_map A) (build_map B) <$> (Path <$> ComputeDiff A B).
Proof.
  unfold ComputeDiff, ComputeDiff_visiting.
  by rewrite build_diffs_paths, build_diffs_map.
Qed.

Lemma ComputeDiff_same_paths (A B A' B' : list FileHash) :
  (∀ path, path ∈ fh_Path <$> A ∨ path ∈ fh_Path <$> B ↔
           path ∈ fh_Path <$> A' ∨ path ∈ fh_Path <$> B') →
  Path <$> ComputeDiff A B = Path <$> ComputeDiff A' B'.
Proof.
  intros Hsame.
  destruct (ComputeDiff_paths A B) as (kp & -> & ND & Hkp).
  destruct (ComputeDiff_paths A' B') as (kp' & -> & ND' & Hkp').
  apply sort_Strings_proper, NoDup_Permutation; [done..|].
  intros path. by rewrite Hkp, Hkp', Hsame.
Qed.

Lemma classify_swap (s d : option string) :
  is_Some s ∨ is_Some d →
  classify d s
  = match classify s d with
    | MissingSource => MissingDestination
    | MissingDestination => MissingSource
    | Match => Match
    | Mismatch => Mismatch
    end.
Proof.
  intros Hsome. destruct s as [hs|], d as [hd|]; simpl; try done.
  - repeat case_decide; try done; congruence.
  - by destruct Hsome as [[? [=]]|[? [=]]].
Qed.

(** X1. Comparing an inventory with itself gives [Match] on every record,
    with the same hash on both sides. *)
Theorem ComputeDiff_self_all_match (A : list FileHash) :
  ∀ d, d ∈ ComputeDiff A A → Status d = Match ∧ SrcHash d = DstHash d.
Proof.
  intros d Hd.
  assert (Path d ∈ Path <$> ComputeDiff A A) as Hp
    by (by apply list_elem_of_fmap_2).
  apply ComputeDiff_paths_union in Hp.
  assert (is_Some (last_hash (Path d) A)) as [h Hh]
    by (apply last_hash_is_Some; tauto).
  rewrite (ComputeDiff_record A A d Hd). simpl. rewrite Hh. simpl.
  by rewrite decide_False by (by intros ?).
Qed.

(** X2. Against an empty destination, the records are those of the paths of
    the source, all [MissingDestination] with an empty destination hash. *)
Theorem ComputeDiff_empty_destination (A : list FileHash) :
  (∀ path, path ∈ Path <$> ComputeDiff A [] ↔ path ∈ fh_Path <$> A) ∧
  (∀ d, d ∈ ComputeDiff A [] →
        Status d = MissingDestination ∧ DstHash d = "" ∧
        last_hash (Path d) A = Some (SrcHash d)).
Proof.
  split.
  - intros path. rewrite ComputeDiff_paths_union. simpl. split; [|tauto].
    intros [?|H]; [done|]. by apply not_elem_of_nil in H.
  - intros d Hd.
    assert (Path d ∈ Path <$> ComputeDiff A []) as Hp
      by (by apply list_elem_of_fmap_2).
    apply ComputeDiff_paths_union in Hp as [Hp|Hp];
      [|by apply not_elem_of_nil in Hp].
    apply last_hash_is_Some in Hp as [h Hh].
    rewrite (ComputeDiff_record A [] d Hd). simpl. by rewrite Hh.
Qed.

(** X3. From an empty source, the records are those of the paths of the
    destination, all [MissingSource] with an empty source hash. *)
Theorem ComputeDiff_empty_source (B : list FileHash) :
  (∀ path, path ∈ Path <$> ComputeDiff [] B ↔ path ∈ fh_Path <$> B) ∧
  (∀ d, d ∈ ComputeDiff [] B →
        Status d = MissingSource ∧ SrcHash d = "" ∧
        last_hash (Path d) B = Some (DstHash d)).
Proof.
  split.
  - intros path. rewrite ComputeDiff_paths_union. simpl. split; [|tauto].
    intros [H|?]; [|done]. by apply not_elem_of_nil in H.
  - intros d Hd.
    assert (Path d ∈ Path <$> ComputeDiff [] B) as Hp
      by (by apply list_elem_of_fmap_2).
    apply ComputeDiff_paths_union in Hp as [Hp|Hp];
      [by apply not_elem_of_nil in Hp|].
    apply last_hash_is_Some in Hp as [h Hh].
    rewrite (ComputeDiff_record [] B d Hd). simpl. by rewrite Hh.
Qed.

(** X4. Exchanging source and destination exchanges the two hashes of every
    record and the statuses [MissingSource] and [MissingDestination]; the
    paths, their order, [Match] and [Mismatch] stay. *)
Theorem ComputeDiff_swap (A B : list FileHash) :
  ComputeDiff B A = swap_sides <$> ComputeDiff A B.
Proof.
  rewrite (ComputeDiff_as_map B A).
  rewrite (ComputeDiff_same_paths B A A B) by (intros path; tauto).
  remember (Path <$> ComputeDiff A B) as paths eqn:Epaths.
  rewrite (ComputeDiff_as_map A B), <- Epaths.
  rewrite <- list_fmap_compose. apply list_fmap_ext. intros i path Hi.
  assert (path ∈ Path <$> ComputeDiff A B) as Hp
    by (rewrite <- Epaths; by eapply list_elem_of_lookup_2).
  apply ComputeDiff_paths_union in Hp.
  rewrite <- !last_hash_is_Some, <- !build_map_lookup in Hp.
  unfold swap_sides, diff_of. simpl. f_equal. by apply classify_swap.
Qed.

(** X5. The hashes of a record agree with its status: equal for [Match],
    different for [Mismatch], and the hash of the missing side is empty. *)
Theorem ComputeDiff_hashes_follow_status (A B : list FileHash) :
  ∀ d, d ∈ ComputeDiff A B →
    (Status d = Match → SrcHash d = DstHash d) ∧
    (Status d = Mismatch → SrcHash d ≠ DstHash d) ∧
    (Status d = MissingSource → SrcHash d = "") ∧
    (Status d = MissingDestination → DstHash d = "").
Proof.
  intros d Hd. rewrite (ComputeDiff_record A B d Hd). simpl.
  destruct (last_hash (Path d) A) as [hs|], (last_hash (Path d) B) as [hd|];
    simpl; try done.
  destruct (decide (hs ≠ hd)) as [N|E]; [done|].
  apply dec_stable in E. by subst.
Qed.

(** X6. With distinct paths in each inventory, the hashes of a record are
    those the inventories give for its path. *)
Theorem ComputeDiff_hashes_from_inventories (A B : list FileHash) :
  NoDup (fh_Path <$> A) → NoDup (fh_Path <$> B) →
  ∀ d h, d ∈ ComputeDiff A B →
    (mkFileHash (Path d) h ∈ A → SrcHash d = h) ∧
    (mkFileHash (Path d) h ∈ B → DstHash d = h).
Proof.
  intros NA NB d h Hd. rewrite (ComputeDiff_record A B d Hd). simpl.
  split; intros Hin; apply last_hash_unique in Hin; try done;
    by rewrite Hin.
Qed.

Lemma ComputeDiff_hashes_from_inventories_witness :
  let A := [mkFileHash "foo.txt" "h1"; mkFileHash "bar.txt" "h2"] in
  let B := [mkFileHash "foo.txt" "h3"] in
  let d := mkDiff "foo.txt" "h1" "h3" Mismatch in
  (mkFileHash (Path d) "h1" ∈ A → SrcHash d = "h1") ∧
  (mkFileHash (Path d) "h1" ∈ B → DstHash d = "h1").
Proof.
  intros A B d. apply (ComputeDiff_hashes_from_inventories A B).
  - apply (bool_decide_unpack _). vm_compute. exact I.
  - apply (bool_decide_unpack _). vm_compute. exact I.
  - apply (bool_decide_unpack _). vm_compute. exact I.
Defined.

(** X7. The result is empty only when both inventories are empty. *)
Theorem ComputeDiff_empty_iff (A B : list FileHash) :
  ComputeDiff A B = [] ↔ A = [] ∧ B = [].
Proof.
  split.
  - intros E.
    assert (∀ path, ¬ (path ∈ fh_Path <$> A ∨ path ∈ fh_Path <$> B)) as Hno.
    { intros path Hp. apply ComputeDiff_paths_union in Hp.
      rewrite E in Hp. by apply not_elem_of_nil in Hp. }
    split.
    + destruct A as [|fh A]; [done|]. destruct (Hno (fh_Path fh)).
      left. simpl. left.
    + destruct B as [|fh B]; [done|]. destruct (Hno (fh_Path fh)).
      right. simpl. left.
  - intros [-> ->]. reflexivity.
Qed.

(** ** The patch of a completed sync *)

Lemma patch_record_other (path srcHash : string) (ds : list Diff) :
  path ∉ Path <$> ds → patch_record path srcHash <$> ds = ds.
Proof.
  induction ds as [|d ds IH]; [done|]. rewrite fmap_cons, not_elem_of_cons.
  intros [N Hds]. rewrite fmap_cons, IH by done. unfold patch_record.
  by rewrite decide_False by done.
Qed.

Lemma patch_done_distinct (path srcHash : string) (ds : list Diff) :
  NoDup (Path <$> ds) →
  patch_done path srcHash ds = patch_record path srcHash <$> ds.
Proof.
  induction ds as [|d ds IH]; [done|]. rewrite fmap_cons, NoDup_cons.
  intros [Hd ND]. simpl. unfold patch_record at 1. case_decide as E.
  - rewrite patch_record_other; [done|]. by rewrite <- E.
  - by rewrite IH.
Qed.

Lemma patch_done_paths (path srcHash : string) (ds : list Diff) :
  Path <$> patch_done path srcHash ds = Path <$> ds.
Proof.
  induction ds as [|d ds IH]; [done|]. cbn [patch_done].
  case_decide; rewrite !fmap_cons; [done|]. by rewrite IH.
Qed.

Lemma patch_done_idem (path srcHash : string) (ds : list Diff) :
  patch_done path srcHash (patch_done path srcHash ds)
  = patch_done path srcHash ds.
Proof.
  induction ds as [|d ds IH]; [done|]. simpl. case_decide as E; simpl.
  - by rewrite decide_True by done.
  - by rewrite decide_False, IH by done.
Qed.

Lemma patch_done_comm (P Q hP hQ : string) (ds : list Diff) :
  P ≠ Q →
  patch_done P hP (patch_done Q hQ ds) = patch_done Q hQ (patch_done P hP ds).
Proof.
  intros N. induction ds as [|d ds IH]; [done|]. simpl.
  destruct (decide (Path d = Q)) as [EQ|NQ], (decide (Path d = P)) as [EP|NP];
    simpl.
  - congruence.
  - by rewrite decide_False, decide_True by done.
  - by rewrite decide_True, decide_False by congruence.
  - by rewrite !decide_False, IH by done.
Qed.

(** Patching in place agrees with a new comparison: when the source inventory
    (distinct paths) holds path [P] with hash [h], the patch of the diff list
    for [P] and [h] is the list [ComputeDiff] returns once the destination
    inventory holds [P] with hash [h]. *)
Lemma patch_done_recompute (A B : list FileHash) (P h : string) :
  NoDup (fh_Path <$> A) → mkFileHash P h ∈ A →
  patch_done P h (ComputeDiff A B) = ComputeDiff A (B ++ [mkFileHash P h]).
Proof.
  intros NA HP.
  assert (build_map A !! P = Some h) as HA
    by (rewrite build_map_lookup; by apply last_hash_unique).
  rewrite patch_done_distinct
    by apply strictly_sorted_NoDup, ComputeDiff_paths_sorted.
  rewrite (ComputeDiff_as_map A (B ++ [mkFileHash P h])).
  rewrite (ComputeDiff_same_paths A (B ++ [mkFileHash P h]) A B).
  - remember (Path <$> ComputeDiff A B) as paths eqn:Epaths.
    rewrite (ComputeDiff_as_map A B), <- Epaths.
    rewrite <- list_fmap_compose. apply list_fmap_ext. intros i path _.
    rewrite build_map_snoc. simpl. unfold patch_record, diff_of. simpl.
    destruct (decide (path = P)) as [->|N].
    + rewrite HA, lookup_insert_eq. simpl.
      by rewrite decide_False by (by intros ?).
    + by rewrite lookup_insert_ne by done.
  - intros path. rewrite fmap_app, elem_of_app. simpl.
    rewrite list_elem_of_singleton. split; [|tauto].
    intros [?|[?| ->]]; [tauto|tauto|]. left.
    by apply (list_elem_of_fmap_2 fh_Path) in HP.
Qed.

Lemma Update_done_success (m : Model) (idx : Z) (P h : string) (ds : list Diff) :
  idx = Index m → slice_at (Diffs m) idx = Some ds →
  Update m (syncDoneMsg idx P None h)
  = Some (mkModel (Pairs m) (Index m)
            (<[Z.to_nat idx := patch_done P h ds]> (Diffs m))
            (Loading m) (Syncing m ∖ {[P]}), None).
Proof.
  intros -> Hds. unfold Update. rewrite decide_True by done. simpl.
  by rewrite Hds.
Qed.

Lemma Update_done_panics (m : Model) (idx : Z) (P h : string) :
  idx = Index m → slice_at (Diffs m) idx = None →
  Update m (syncDoneMsg idx P None h) = None.
Proof.
  intros -> Hds. unfold Update. rewrite decide_True by done. simpl.
  by rewrite Hds.
Qed.

Lemma Update_done_failure (m : Model) (idx : Z) (P : string) (e : error)
    (h : string) :
  idx = Index m →
  Update m (syncDoneMsg idx P (Some e) h)
  = Some (mkModel (Pairs m) (Index m) (Diffs m) (Loading m)
            (Syncing m ∖ {[P]}), None).
Proof. intros ->. unfold Update. by rewrite decide_True. Qed.

Lemma difference_singleton_twice (S : gset string) (P : string) :
  S ∖ {[P]} ∖ {[P]} = S ∖ {[P]}.
Proof.
  apply set_eq. intros x. rewrite !elem_of_difference, elem_of_singleton. tauto.
Qed.

Lemma difference_singleton_comm (S : gset string) (P Q : string) :
  S ∖ {[P]} ∖ {[Q]} = S ∖ {[Q]} ∖ {[P]}.
Proof.
  apply set_eq. intros x. rewrite !elem_of_difference, !elem_of_singleton. tauto.
Qed.

Lemma Update_done_current (m : Model) (idx : Z) (P : string)
    (err : option error) (h : string) (ds : list Diff) :
  idx = Index m → slice_at (Diffs m) idx = Some ds →
  Update m (syncDoneMsg idx P err h)
  = Some (mkModel (Pairs m) (Index m)
            (<[Z.to_nat idx := done_effect err P h ds]> (Diffs m))
            (Loading m) (Syncing m ∖ {[P]}), None).
Proof.
  intros Hidx Hds. destruct err as [e|]; cbn [done_effect].
  - rewrite Update_done_failure by done. do 3 f_equal.
    symmetry. apply list_insert_id. by apply slice_at_Some in Hds as [_ ?].
  - by apply Update_done_success.
Qed.

Lemma run_done_twice (m : Model) (P Q : string) (errP errQ : option error)
    (hP hQ : string) (ds : list Diff) :
  slice_at (Diffs m) (Index m) = Some ds →
  run m [syncDoneMsg (Index m) P errP hP; syncDoneMsg (Index m) Q errQ hQ]
  = Some (mkModel (Pairs m) (Index m)
            (<[Z.to_nat (Index m) :=
                 done_effect errQ Q hQ (done_effect errP P hP ds)]> (Diffs m))
            (Loading m) (Syncing m ∖ {[P]} ∖ {[Q]})).
Proof.
  intros Hds. cbn [run].
  rewrite (Update_done_current m (Index m) P errP hP ds) by done.
  cbn beta iota.
  rewrite (Update_done_current _ (Index m) Q errQ hQ (done_effect errP P hP ds));
    [|done|by eapply slice_at_insert_eq].
  cbn [Pairs Index Diffs Loading Syncing].
  by rewrite list_insert_insert_eq.
Qed.

Lemma run_done_twice_panics (m : Model) (P Q : string)
    (errP errQ : option error) (hP hQ : string) :
  slice_at (Diffs m) (Index m) = None →
  run m [syncDoneMsg (Index m) P errP hP; syncDoneMsg (Index m) Q errQ hQ]
  = match errP, errQ with
    | Some _, Some _ =>
        Some (mkModel (Pairs m) (Index m) (Diffs m) (Loading m)
                (Syncing m ∖ {[P]} ∖ {[Q]}))
    | _, _ => None
    end.
Proof.
  intros Hds. cbn [run]. destruct errP as [eP|].
  - rewrite Update_done_failure by done. cbn beta iota.
    destruct errQ as [eQ|].
    + by rewrite Update_done_failure by done.
    + by rewrite Update_done_panics by done.
  - by rewrite Update_done_panics by done.
Qed.

(** X8. A done event that arrives twice has the effect of one: the second
    copy changes nothing. *)
Theorem sync_done_idempotent (m : Model) (idx : Z) (P : string)
    (err : option error) (h : string) :
  run m [syncDoneMsg idx P err h; syncDoneMsg idx P err h]
  = run m [syncDoneMsg idx P err h].
Proof.
  destruct (decide (idx = Index m)) as [->|N].
  - destruct (slice_at (Diffs m) (Index m)) as [ds|] eqn:Hds.
    + rewrite (run_done_twice m P P err err h h ds Hds). cbn [run].
      rewrite (Update_done_current m (Index m) P err h ds) by done.
      rewrite difference_singleton_twice. do 3 f_equal.
      destruct err; [done|]. simpl. apply patch_done_idem.
    + rewrite (run_done_twice_panics m P P err err h h Hds). cbn [run].
      destruct err as [e|].
      * rewrite Update_done_failure by done.
        by rewrite difference_singleton_twice.
      * by rewrite Update_done_panics by done.
  - simpl. unfold Update. by rewrite !decide_False by done.
Qed.

(** X9. Done events of the current pair for two different paths can arrive
    in either order: the session they leave is the same. *)
Theorem sync_done_commute (m : Model) (P Q : string)
    (errP errQ : option error) (hP hQ : string) :
  P ≠ Q →
  run m [syncDoneMsg (Index m) P errP hP; syncDoneMsg (Index m) Q errQ hQ]
  = run m [syncDoneMsg (Index m) Q errQ hQ; syncDoneMsg (Index m) P errP hP].
Proof.
  intros N.
  destruct (slice_at (Diffs m) (Index m)) as [ds|] eqn:Hds.
  - rewrite (run_done_twice m P Q errP errQ hP hQ ds Hds).
    rewrite (run_done_twice m Q P errQ errP hQ hP ds Hds).
    rewrite difference_singleton_comm. do 3 f_equal.
    destruct errP, errQ; simpl; try done. by apply patch_done_comm.
  - rewrite (run_done_twice_panics m P Q errP errQ hP hQ Hds).
    rewrite (run_done_twice_panics m Q P errQ errP hQ hP Hds).
    destruct errP, errQ; try done. by rewrite difference_singleton_comm.
Qed.

Lemma sync_done_commute_witness :
  let m := mkModel [mkDirectoryPair "src" "dst"] 0
             [[mkDiff "a" "x" "y" Mismatch; mkDiff "b" "h" "" MissingDestination]]
             false {["a"; "b"]} in
  run m [syncDoneMsg (Index m) "a" None "x"; syncDoneMsg (Index m) "b" (Some "rsync") ""]
  = run m [syncDoneMsg (Index m) "b" (Some "rsync") ""; syncDoneMsg (Index m) "a" None "x"].
Proof.
  intros m. apply (sync_done_commute m "a" "b" None (Some "rsync") "x" "").
  done.
Defined.

(** ** In-flight markers *)

Lemma Update_start_current (m : Model) (idx : Z) (P : string) :
  idx = Index m →
  Update m (syncStartMsg idx P)
  = Some (mkModel (Pairs m) (Index m) (Diffs m) (Loading m)
            ({[P]} ∪ Syncing m), None).
Proof. intros ->. unfold Update. by rewrite decide_True. Qed.

(** X10. A start event followed by the failed done event of the same path
    brings the session back to what it was, when the path was not in flight
    before. *)
Theorem sync_start_then_failure_restores (m : Model) (P : string) (e : error)
    (h : string) :
  P ∉ Syncing m →
  run m [syncStartMsg (Index m) P; syncDoneMsg (Index m) P (Some e) h]
  = Some m.
Proof.
  intros Hnot. cbn [run]. rewrite Update_start_current by done.
  cbn beta iota. rewrite Update_done_failure by done.
  cbn [Pairs Index Diffs Loading Syncing].
  replace (({[P]} ∪ Syncing m) ∖ {[P]}) with (Syncing m); [by destruct m|].
  apply set_eq. intros x.
  rewrite elem_of_difference, elem_of_union, elem_of_singleton.
  split; [|tauto]. intros Hx. split; [tauto|]. by intros ->.
Qed.

Lemma sync_start_then_failure_restores_witness :
  let m := mkModel [mkDirectoryPair "src" "dst"] 0
             [[mkDiff "a" "x" "y" Mismatch]] false {["b"]} in
  run m [syncStartMsg (Index m) "a"; syncDoneMsg (Index m) "a" (Some "rsync") ""]
  = Some m.
Proof.
  intros m. apply (sync_start_then_failure_restores m "a" "rsync" "").
  apply (bool_decide_unpack _). vm_compute. exact I.
Defined.

(** X11. The in-flight set does not count: however many start events a path
    got, its first done event for the current pair removes the marker. *)
Theorem sync_done_clears_repeated_starts (m m' : Model) (n : nat) (P : string)
    (err : option error) (h : string) :
  run m (replicate n (syncStartMsg (Index m) P)
           ++ [syncDoneMsg (Index m) P err h]) = Some m' →
  P ∉ Syncing m'.
Proof.
  revert m. induction n as [|n IH]; intros m.
  - cbn [replicate app run].
    destruct (Update m (syncDoneMsg (Index m) P err h)) as [[m1 c]|] eqn:HU;
      [|done].
    intros [= <-]. unfold Update in HU. rewrite decide_True in HU by done.
    destruct err as [e|].
    + injection HU as <- _. simpl.
      rewrite elem_of_difference, elem_of_singleton. tauto.
    + simpl in HU. destruct (slice_at (Diffs m) (Index m)); [|done].
      injection HU as <- _. simpl.
      rewrite elem_of_difference, elem_of_singleton. tauto.
  - cbn [replicate app run]. rewrite Update_start_current by done.
    cbn beta iota. apply (IH (mkModel _ _ _ _ _)).
Qed.

Lemma sync_done_clears_repeated_starts_witness :
  let m := mkModel [mkDirectoryPair "src" "dst"] 0
             [[mkDiff "a" "x" "y" Mismatch]] false ∅ in
  let m' := mkModel [mkDirectoryPair "src" "dst"] 0
              [[mkDiff "a" "x" "x" Match]] false ∅ in
  run m (replicate 2 (syncStartMsg (Index m) "a")
           ++ [syncDoneMsg (Index m) "a" None "x"]) = Some m' ∧
  "a" ∉ Syncing m'.
Proof.
  intros m m'.
  assert (run m (replicate 2 (syncStartMsg (Index m) "a")
                   ++ [syncDoneMsg (Index m) "a" None "x"]) = Some m') as Hrun
    by reflexivity.
  split; [done|].
  by apply (sync_done_clears_repeated_starts m m' 2 "a" None "x").
Defined.

(** X12. A pair switch while a sync runs strands its marker: with two pairs or
    more, after a start event, a pair switch and the done event of that path,
    the done event has been dropped: the path is still in flight and the
    diff lists are as before. *)
Theorem pair_switch_strands_marker (m : Model) (P : string)
    (err : option error) (h : string) :
  Index_in_range m → (2 ≤ length (Pairs m))%nat →
  run m [syncStartMsg (Index m) P; KeyMsg "tab";
         syncDoneMsg (Index m) P err h]
  = Some (mkModel (Pairs m)
            ((Index m + 1) `mod` Z.of_nat (length (Pairs m)))%Z
            (Diffs m) (Loading m) ({[P]} ∪ Syncing m)).
Proof.
  intros Hr Hn. cbn [run]. rewrite Update_start_current by done.
  cbn beta iota. rewrite Update_tab by done.
  cbn beta iota. unfold set_Index. cbn [Pairs Index Diffs Loading Syncing].
  unfold Update. rewrite decide_False; [done|].
  cbn [Index]. unfold Index_in_range in Hr. intros E.
  destruct (decide (Index m + 1 < Z.of_nat (length (Pairs m)))%Z) as [L|G].
  - rewrite Z.mod_small in E by lia. lia.
  - replace (Index m + 1)%Z with (Z.of_nat (length (Pairs m))) in E by lia.
    rewrite Z.mod_same in E by lia. lia.
Qed.

Lemma pair_switch_strands_marker_witness :
  let m := mkModel [mkDirectoryPair "s0" "d0"; mkDirectoryPair "s1" "d1"] 1
             [[]; [mkDiff "a" "x" "y" Mismatch]] false ∅ in
  run m [syncStartMsg (Index m) "a"; KeyMsg "tab";
         syncDoneMsg (Index m) "a" None "x"]
  = Some (mkModel (Pairs m)
            ((Index m + 1) `mod` Z.of_nat (length (Pairs m)))%Z
            (Diffs m) (Loading m) ({["a"]} ∪ Syncing m)).
Proof.
  intros m. apply (pair_switch_strands_marker m "a" None "x").
  - unfold Index_in_range. simpl. lia.
  - simpl. lia.
Defined.

(** ** Start-up and the absence of panics *)

Lemma computeAllDiffs_acc (scan_source scan_destination : string → list FileHash + error)
    (pairs : list DirectoryPair) (acc : list (list Diff)) :
  foldl (λ all p,
           match scan_source (Source p), scan_destination (Destination p) with
           | inl src, inl dst => all ++ [ComputeDiff src dst]
           | _, _ => all ++ [[]]
           end) acc pairs
  = acc ++ ((λ p, match scan_source (Source p),
                        scan_destination (Destination p) with
                  | inl src, inl dst => ComputeDiff src dst
                  | _, _ => []
                  end) <$> pairs).
Proof.
  revert acc. induction pairs as [|p pairs IH]; intros acc; simpl.
  - by rewrite app_nil_r.
  - rewrite IH.
    destruct (scan_source (Source p)), (scan_destination (Destination p));
      by rewrite <- app_assoc.
Qed.

Lemma computeAllDiffs_as_map (scan_source scan_destination : string → list FileHash + error)
    (pairs : list DirectoryPair) :
  computeAllDiffs scan_source scan_destination pairs
  = (λ p, match scan_source (Source p), scan_destination (Destination p) with
          | inl src, inl dst => ComputeDiff src dst
          | _, _ => []
          end) <$> pairs.
Proof. unfold computeAllDiffs. by rewrite computeAllDiffs_acc. Qed.

(** X13. [computeAllDiffs] returns one diff list per pair, in the order of the
    pairs: the comparison of the two inventories when both scans succeed, and
    an empty list when either fails. *)
Theorem computeAllDiffs_per_pair
    (scan_source scan_destination : string → list FileHash + error)
    (pairs : list DirectoryPair) :
  length (computeAllDiffs scan_source scan_destination pairs) = length pairs ∧
  (∀ i p, pairs !! i = Some p →
     (∀ src dst, scan_source (Source p) = inl src →
                 scan_destination (Destination p) = inl dst →
                 computeAllDiffs scan_source scan_destination pairs !! i
                 = Some (ComputeDiff src dst)) ∧
     (∀ err, scan_source (Source p) = inr err
             ∨ scan_destination (Destination p) = inr err →
             computeAllDiffs scan_source scan_destination pairs !! i
             = Some [])).
Proof.
  rewrite computeAllDiffs_as_map. split; [by rewrite length_fmap|].
  intros i p Hp. rewrite list_lookup_fmap, Hp. simpl. split.
  - by intros src dst -> ->.
  - intros err [-> | ->]; [done|]. by destruct (scan_source _).
Qed.

Lemma NewModel_wf (scan_source scan_destination : string → list FileHash + error)
    (pairs : list DirectoryPair) :
  (1 ≤ length pairs)%nat →
  Model_wf (NewModel scan_source scan_destination pairs).
Proof.
  intros Hn. split; [by apply NewModel_Index_in_range|]. simpl.
  rewrite computeAllDiffs_as_map. by rewrite length_fmap.
Qed.

Lemma slice_at_is_Some {A} (s : list A) (i : Z) :
  (0 ≤ i < Z.of_nat (length s))%Z → is_Some (slice_at s i).
Proof.
  intros Hi. unfold slice_at. rewrite decide_True by lia.
  apply lookup_lt_is_Some. lia.
Qed.

Lemma Update_wf (m : Model) (msg : Msg) :
  Model_wf m →
  (∀ diffs, msg = diffsMsg diffs → length diffs = length (Pairs m)) →
  ∃ m' c, Update m msg = Some (m', c) ∧ Pairs m' = Pairs m ∧ Model_wf m'.
Proof.
  intros [Hr Hlen] Hmsg. unfold Model_wf, Index_in_range in *.
  destruct msg as [diffs|idx path|idx path err srcHash|key|]; unfold Update.
  - eexists _, _. split; [done|]. simpl. split; [done|]. split; [done|].
    by apply Hmsg.
  - case_decide; eexists _, _; (split; [done|]); simpl; done.
  - case_decide as E; [|by eexists _, _].
    destruct err as [e|]; [by eexists _, _|]. simpl.
    destruct (slice_at_is_Some (Diffs m) idx) as [ds ->]; [lia|].
    eexists _, _. split; [done|]. simpl. split; [done|]. split; [done|].
    by rewrite length_insert.
  - repeat case_decide; try (by eexists _, _).
    + eexists _, _. split; [done|]. simpl. split; [done|]. split; [lia|done].
    + eexists _, _. split; [done|]. simpl. split; [done|]. split; [lia|done].
    + destruct (slice_at_is_Some (Pairs m) (Index m)) as [pr ->]; [lia|].
      destruct (slice_at_is_Some (Diffs m) (Index m)) as [ds ->]; [lia|].
      by eexists _, _.
  - by eexists _, _.
Qed.

Lemma run_wf (msgs : list Msg) (m : Model) :
  Model_wf m →
  Forall (λ msg, ∀ diffs, msg = diffsMsg diffs →
                          length diffs = length (Pairs m)) msgs →
  ∃ m', run m msgs = Some m' ∧ Pairs m' = Pairs m ∧ Model_wf m'.
Proof.
  revert m. induction msgs as [|msg msgs IH]; intros m Hwf Hall.
  - by exists m.
  - apply Forall_cons in Hall as [Hmsg Hall]. cbn [run].
    destruct (Update_wf m msg Hwf Hmsg) as (m1 & c & -> & HP & Hwf1).
    destruct (IH m1 Hwf1) as (m' & Hrun & HP' & Hwf').
    { by rewrite HP. }
    exists m'. split; [done|]. split; [congruence|done].
Qed.

(** X14. No panic with at least one pair: started by [NewModel] on a
    non-empty pair list, the session goes through any sequence of messages in
    which every [diffsMsg] carries one list per pair (as [computeDiffsCmd]
    produces them); it keeps its pair list, an index into it, and one diff
    list per pair. *)
Theorem run_never_panics
    (scan_source scan_destination : string → list FileHash + error)
    (pairs : list DirectoryPair) (msgs : list Msg) :
  (1 ≤ length pairs)%nat →
  Forall (λ msg, ∀ diffs, msg = diffsMsg diffs →
                          length diffs = length pairs) msgs →
  ∃ m', run (NewModel scan_source scan_destination pairs) msgs = Some m' ∧
        Pairs m' = pairs ∧ Index_in_range m' ∧
        length (Diffs m') = length pairs.
Proof.
  intros Hn Hall.
  destruct (run_wf msgs (NewModel scan_source scan_destination pairs))
    as (m' & Hrun & HP & [Hr Hlen]); [by apply NewModel_wf|done|].
  exists m'. simpl in HP. rewrite HP in Hlen. done.
Qed.

Lemma run_never_panics_witness :
  let scan := λ _ : string, inl [mkFileHash "a" "x"] : list FileHash + error in
  let pairs := [mkDirectoryPair "src" "dst"] in
  let msgs := [KeyMsg "s"; syncStartMsg 0 "a"; KeyMsg "tab"; KeyMsg "r";
               diffsMsg [[]]; syncDoneMsg 0 "a" None "x"; KeyMsg "q"] in
  ∃ m', run (NewModel scan scan pairs) msgs = Some m' ∧
        Pairs m' = pairs ∧ Index_in_range m' ∧
        length (Diffs m') = length pairs.
Proof.
  intros scan pairs msgs. apply (run_never_panics scan scan pairs msgs).
  - simpl. lia.
  - repeat constructor; intros diffs [=]; by subst.
Defined.

(** X15. Without a current pair the sync request panics: when the index is
    not an index into the pair list (as with an empty configuration), ["s"]
    ends the program. *)
Theorem sync_request_panics_without_pair (m : Model) :
  ¬ Index_in_range m → Update m (KeyMsg "s") = None.
Proof.
  unfold Index_in_range. intros Hr. unfold Update. simpl.
  destruct (slice_at (Pairs m) (Index m)) as [pr|] eqn:Hpr; [|done].
  apply slice_at_lt in Hpr. lia.
Qed.

Lemma sync_request_panics_without_pair_witness :
  Update (NewModel (λ _, inl []) (λ _, inl []) []) (KeyMsg "s") = None.
Proof.
  apply sync_request_panics_without_pair.
  unfold Index_in_range. simpl. lia.
Defined.

(** ** A whole sync *)

Lemma run_done_events (fresh : string → string) (sel : list Diff) (m : Model)
    (ds : list Diff) :
  slice_at (Diffs m) (Index m) = Some ds →
  ∃ m', run m ((λ d, syncDoneMsg (Index m) (Path d) None (fresh (Path d)))
                 <$> sel) = Some m' ∧
        Pairs m' = Pairs m ∧ Index m' = Index m ∧
        slice_at (Diffs m') (Index m)
        = Some (foldl (λ ds d, patch_done (Path d) (fresh (Path d)) ds) ds sel).
Proof.
  revert m ds. induction sel as [|d sel IH]; intros m ds Hds.
  - by exists m.
  - rewrite fmap_cons. cbn [run foldl].
    rewrite (Update_done_success m (Index m) _ _ ds) by done.
    cbn beta iota.
    destruct (IH (mkModel (Pairs m) (Index m)
                    (<[Z.to_nat (Index m) :=
                         patch_done (Path d) (fresh (Path d)) ds]> (Diffs m))
                    (Loading m) (Syncing m ∖ {[Path d]}))
                 (patch_done (Path d) (fresh (Path d)) ds))
      as (m' & Hrun & HP & HI & Hds'); [by eapply slice_at_insert_eq|].
    by exists m'.
Qed.

Lemma patch_all_paths (fresh : string → string) (sel ds : list Diff) :
  Path <$> foldl (λ ds d, patch_done (Path d) (fresh (Path d)) ds) ds sel
  = Path <$> ds.
Proof.
  revert ds. induction sel as [|d sel IH]; intros ds; [done|].
  cbn [foldl]. by rewrite IH, patch_done_paths.
Qed.

Lemma patch_all_records (fresh : string → string) (sel ds : list Diff) :
  NoDup (Path <$> ds) →
  ∀ d', d' ∈ foldl (λ ds d, patch_done (Path d) (fresh (Path d)) ds) ds sel →
        Status d' = Match ∨ (d' ∈ ds ∧ Path d' ∉ Path <$> sel).
Proof.
  intros ND. induction sel as [|d0 sel IH] using rev_ind; intros d'.
  - simpl. intros Hd'. right. split; [done|]. apply not_elem_of_nil.
  - rewrite foldl_snoc, patch_done_distinct by (by rewrite patch_all_paths).
    intros (x & -> & Hx)%list_elem_of_fmap. unfold patch_record.
    case_decide as E; [by left|].
    destruct (IH x Hx) as [?|[Hin Hnot]]; [by left|]. right.
    split; [done|]. rewrite fmap_app, elem_of_app. simpl.
    rewrite list_elem_of_singleton. intros [?|?]; [done|congruence].
Qed.

Lemma filter_needs_repair_none (ds : list Diff) :
  Forall (λ d, ¬ needs_repair d) ds → filter needs_repair ds = [].
Proof.
  induction 1 as [|d ds Hd _ IH]; [done|].
  by rewrite filter_cons, decide_False.
Qed.

(** X16. A sync that succeeds everywhere leaves nothing to repair: when the
    paths of the current diff list are distinct and every record selected by a
    sync request gets its successful done event, the next sync request issues
    no command. *)
Theorem sync_all_done_leaves_nothing (fresh : string → string) (m : Model)
    (pr : DirectoryPair) (ds : list Diff) :
  slice_at (Pairs m) (Index m) = Some pr →
  slice_at (Diffs m) (Index m) = Some ds →
  NoDup (Path <$> ds) →
  ∃ m', run m ((λ d, syncDoneMsg (Index m) (Path d) None (fresh (Path d)))
                 <$> filter needs_repair ds) = Some m' ∧
        Update m' (KeyMsg "s") = Some (m', Some (Batch [])).
Proof.
  intros Hpr Hds ND.
  destruct (run_done_events fresh (filter needs_repair ds) m ds Hds)
    as (m' & Hrun & HP & HI & Hds').
  exists m'. split; [done|]. unfold Update. simpl.
  rewrite HP, HI, Hpr, Hds', sync_cmds_filter.
  replace (filter needs_repair _) with (@nil Diff); [done|].
  symmetry. apply filter_needs_repair_none, Forall_forall. intros d' Hd'.
  destruct (patch_all_records fresh _ ds ND d' Hd') as [E|[Hin Hnot]].
  - unfold needs_repair. rewrite E. by intros [?|?].
  - intros Hrep. apply Hnot, list_elem_of_fmap_2.
    by apply list_elem_of_filter.
Qed.

Lemma sync_all_done_leaves_nothing_witness :
  let pr := mkDirectoryPair "src" "dst" in
  let ds := [mkDiff "a" "x" "y" Mismatch; mkDiff "b" "h" "h" Match;
             mkDiff "c" "" "k" MissingSource;
             mkDiff "d" "u" "" MissingDestination] in
  let m := mkModel [pr] 0 [ds] false ∅ in
  ∃ m', run m ((λ d, syncDoneMsg (Index m) (Path d) None "fresh")
                 <$> filter needs_repair ds) = Some m' ∧
        Update m' (KeyMsg "s") = Some (m', Some (Batch [])).
Proof.
  intros pr ds m.
  apply (sync_all_done_leaves_nothing (λ _, "fresh") m pr ds).
  - reflexivity.
  - reflexivity.
  - apply (bool_decide_unpack _). vm_compute. exact I.
Defined.

(** ** Locators *)

Lemma SplitN_colon_2_cases (addr : string) :
  (Contains_colon addr = false ∧ SplitN_colon_2 addr = [addr]) ∨
  (Contains_colon addr = true ∧
   ∃ host base, SplitN_colon_2 addr = [host; base] ∧
                addr = host +:+ String ":" base ∧
                Contains_colon host = false).
Proof.
  induction addr as [|c addr IH]; simpl; [by left|].
  case_decide as E.
  - right. split; [done|]. exists "", addr. by rewrite E.
  - destruct IH as [[Hno ->]|(Hyes & host & base & -> & -> & Hhost)].
    + by left.
    + right. split; [done|]. exists (String c host), base. simpl.
      by rewrite decide_False.
Qed.

(** X17. An address is split at its first colon: [SplitN_colon_2] returns two
    parts exactly when the address has a colon, the host being the text before
    the first colon (it has none itself) and the base all the rest, further
    colons included; an address without colon comes back whole. *)
Theorem SplitN_colon_2_first_colon (addr : string) :
  (∀ host base, SplitN_colon_2 addr = [host; base] ↔
                addr = host +:+ String ":" base ∧ Contains_colon host = false) ∧
  (Contains_colon addr = true ↔ length (SplitN_colon_2 addr) = 2%nat) ∧
  (Contains_colon addr = false ↔ SplitN_colon_2 addr = [addr]).
Proof.
  split; [|split].
  - intros host base. split.
    + intros HS.
      destruct (SplitN_colon_2_cases addr)
        as [[_ E]|(_ & host' & base' & E & Haddr & Hhost)];
        rewrite E in HS; [done|]. by injection HS as <- <-.
    + intros [-> Hhost]. clear -Hhost.
      induction host as [|c host IH]; simpl in *; [done|].
      case_decide; [done|]. by rewrite IH.
  - destruct (SplitN_colon_2_cases addr)
      as [[-> ->]|(-> & host' & base' & -> & _)]; simpl; split; done.
  - destruct (SplitN_colon_2_cases addr)
      as [[-> ->]|(-> & host' & base' & -> & -> & _)]; split; done.
Qed.

Lemma TrimRight_slash_snoc (s : string) :
  TrimRight_slash (s +:+ "/") = TrimRight_slash s.
Proof.
  induction s as [|c s IH]; [done|]. simpl. by rewrite IH.
Qed.

Lemma TrimRight_slash_no_trailing (s : string) :
  ∀ t, TrimRight_slash s ≠ t +:+ "/".
Proof.
  induction s as [|c s IH]; simpl; intros t.
  - by destruct t.
  - destruct (TrimRight_slash s) as [|c' s'] eqn:E.
    + case_decide as Ec; [by destruct t|].
      destruct t as [|c0 t]; simpl; [by intros [= ->]|].
      by destruct t.
    + destruct t as [|c0 t]; simpl; [done|]. intros [= -> Ht].
      by apply (IH t).
Qed.

(** X18. Trailing slashes of a locator do not matter: [TrimRight_slash] leaves
    no slash at the end, a local directory written with one more slash gives
    the same listing (so ["/"] is walked as the empty path), and so does a
    remote address. *)
Theorem listing_ignores_trailing_slash
    (tree : string → list visit)
    (ExecCommand : string → list string → option error * string)
    (ScanLines : string → list string * option error)
    (Fields : string → list string) :
  (∀ s t, TrimRight_slash s ≠ t +:+ "/") ∧
  (∀ dir, ListLocal tree (dir +:+ "/") = ListLocal tree dir) ∧
  (∀ addr, Contains_colon addr = true →
           ListRemote ExecCommand ScanLines Fields (addr +:+ "/")
           = ListRemote ExecCommand ScanLines Fields addr).
Proof.
  split; [apply TrimRight_slash_no_trailing|]. split.
  - intros dir. unfold ListLocal. by rewrite TrimRight_slash_snoc.
  - intros addr Hc.
    destruct (SplitN_colon_2_cases addr)
      as [[Hno _]|(_ & host & base & HS & -> & Hhost)]; [congruence|].
    assert (SplitN_colon_2 ((host +:+ String ":" base) +:+ "/")
            = [host; base +:+ "/"]) as HS'.
    { clear -Hhost. induction host as [|c host IH]; simpl in *; [done|].
      case_decide; [done|]. by rewrite IH. }
    unfold ListRemote. by rewrite HS, HS', TrimRight_slash_snoc.
Qed.

Lemma listing_ignores_trailing_slash_witness :
  let ExecCommand := λ (_ : string) (args : list string),
    (None : option error, String.concat "|" args) in
  let ScanLines := λ out : string, ([out], None : option error) in
  let Fields := λ line : string, ["h"; line] in
  ListRemote ExecCommand ScanLines Fields ("host:/data" +:+ "/")
  = ListRemote ExecCommand ScanLines Fields "host:/data".
Proof.
  intros ExecCommand ScanLines Fields.
  destruct (listing_ignores_trailing_slash (λ _, []) ExecCommand ScanLines Fields)
    as (_ & _ & HR).
  apply HR. reflexivity.
Defined.

(** ** The repair command *)

Lemma find_hash_absent (path : string) (src : list FileHash) :
  path ∉ fh_Path <$> src → find_hash path src = "".
Proof.
  induction src as [|fh src IH]; [done|]. rewrite fmap_cons, not_elem_of_cons.
  intros [N Hsrc]. simpl. rewrite decide_False by done. by apply IH.
Qed.

Lemma find_hash_distinct (path hash : string) (src : list FileHash) :
  NoDup (fh_Path <$> src) → mkFileHash path hash ∈ src →
  find_hash path src = hash.
Proof.
  induction src as [|fh src IH]; intros ND Hin.
  - by apply not_elem_of_nil in Hin.
  - rewrite fmap_cons in ND. apply NoDup_cons in ND as [Hfh ND].
    apply elem_of_cons in Hin as [<-|Hin]; simpl.
    + by rewrite decide_True.
    + rewrite decide_False; [by apply IH|]. intros E. apply Hfh.
      rewrite E. by apply (list_elem_of_fmap_2 fh_Path) in Hin.
Qed.

(** X19. A successful copy whose re-read of the source fails, or no longer
    finds the path, still marks the record as matching: the done event carries
    an empty hash and no error, and the first record of the path ends with
    status [Match] and an empty destination hash. *)
Theorem sync_reread_lost_marks_match (m : Model) (P : string)
    (reread : list FileHash + error) (ds : list Diff) (i : nat) (d : Diff) :
  (∀ src, reread = inl src → P ∉ fh_Path <$> src) →
  slice_at (Diffs m) (Index m) = Some ds →
  ds !! i = Some d → Path d = P →
  (∀ j d', (j < i)%nat → ds !! j = Some d' → Path d' ≠ P) →
  syncFileCmd_msg None reread (Index m) P = syncDoneMsg (Index m) P None "" ∧
  ∃ m' ds',
    Update m (syncFileCmd_msg None reread (Index m) P) = Some (m', None) ∧
    slice_at (Diffs m') (Index m') = Some ds' ∧
    ds' !! i = Some (mkDiff P (SrcHash d) "" Match).
Proof.
  intros Hlost Hds Hi HP Hfirst.
  assert (syncFileCmd_msg None reread (Index m) P
          = syncDoneMsg (Index m) P None "") as ->.
  { unfold syncFileCmd_msg. destruct reread as [src|e]; [|done].
    by rewrite find_hash_absent by (by apply Hlost). }
  split; [done|].
  rewrite (Update_done_success m (Index m) P "" ds) by done.
  eexists _, _. split; [done|]. simpl.
  split; [by eapply slice_at_insert_eq|].
  rewrite (patch_done_first P "" ds i d) by done.
  apply list_lookup_insert_eq. by eapply lookup_lt_Some.
Qed.

Lemma sync_reread_lost_marks_match_witness :
  let m := mkModel [mkDirectoryPair "host:/src" "dst"] 0
             [[mkDiff "a" "x" "y" Mismatch]] false {["a"]} in
  syncFileCmd_msg None (inr "ssh error: exit status 255") (Index m) "a"
  = syncDoneMsg (Index m) "a" None "" ∧
  ∃ m' ds',
    Update m (syncFileCmd_msg None (inr "ssh error: exit status 255")
                (Index m) "a") = Some (m', None) ∧
    slice_at (Diffs m') (Index m') = Some ds' ∧
    ds' !! 0%nat = Some (mkDiff "a" "x" "" Match).
Proof.
  intros m.
  apply (sync_reread_lost_marks_match m "a" (inr "ssh error: exit status 255")
           [mkDiff "a" "x" "y" Mismatch] 0 (mkDiff "a" "x" "y" Mismatch)).
  - intros src [=].
  - reflexivity.
  - reflexivity.
  - reflexivity.
  - intros j d' Hj. lia.
Defined.

(** X20. A sync of one file over an unchanged source is a recomputation: when
    the current diff list is [ComputeDiff A B], the source inventory [A]
    (distinct paths) holds [P], the copy succeeds and the re-read returns [A]
    again, the done event of [syncFileCmd] leaves as current diff list the
    comparison of [A] with the destination inventory in which [P] has the
    hash of the source, and takes [P] out of the in-flight set. *)
Theorem sync_file_is_recompute (m : Model) (A B : list FileHash) (P h : string) :
  NoDup (fh_Path <$> A) → mkFileHash P h ∈ A →
  slice_at (Diffs m) (Index m) = Some (ComputeDiff A B) →
  Update m (syncFileCmd_msg None (inl A) (Index m) P)
  = Some (mkModel (Pairs m) (Index m)
            (<[Z.to_nat (Index m) := ComputeDiff A (B ++ [mkFileHash P h])]>
               (Diffs m))
            (Loading m) (Syncing m ∖ {[P]}), None).
Proof.
  intros NA HP Hds. unfold syncFileCmd_msg.
  rewrite (find_hash_distinct P h A NA HP).
  rewrite (Update_done_success m (Index m) P h _ eq_refl Hds).
  by rewrite (patch_done_recompute A B P h NA HP).
Qed.

Lemma sync_file_is_recompute_witness :
  let A := [mkFileHash "foo.txt" "h1"; mkFileHash "bar.txt" "h2"] in
  let B := [mkFileHash "foo.txt" "old"] in
  let m := mkModel [mkDirectoryPair "src" "dst"] 0 [ComputeDiff A B] false
             {["foo.txt"; "bar.txt"]} in
  Update m (syncFileCmd_msg None (inl A) (Index m) "foo.txt")
  = Some (mkModel (Pairs m) (Index m)
            (<[Z.to_nat (Index m) :=
                 ComputeDiff A (B ++ [mkFileHash "foo.txt" "h1"])]> (Diffs m))
            (Loading m) (Syncing m ∖ {["foo.txt"]}), None).
Proof.
  intros A B m. apply (sync_file_is_recompute m A B "foo.txt" "h1").
  - apply (bool_decide_unpack _). vm_compute. exact I.
  - apply (bool_decide_unpack _). vm_compute. exact I.
  - reflexivity.
Defined.

(** ** What only a refresh changes *)

Lemma patch_done_keeps_files (path srcHash : string) (ds : list Diff) :
  (λ d, (Path d, SrcHash d)) <$> patch_done path srcHash ds
  = (λ d, (Path d, SrcHash d)) <$> ds.
Proof.
  induction ds as [|d ds IH]; [done|]. cbn [patch_done].
  case_decide; rewrite !fmap_cons; [done|]. by rewrite IH.
Qed.

(** X21. Only a refresh changes which files are listed: a message other than
    [diffsMsg] leaves in every diff list the same records in the same order,
    as far as their paths and source hashes go. *)
Theorem Update_keeps_listed_files (m m' : Model) (msg : Msg) (c : option Cmd) :
  (∀ diffs, msg ≠ diffsMsg diffs) →
  Update m msg = Some (m', c) →
  (λ ds : list Diff, (λ d, (Path d, SrcHash d)) <$> ds) <$> Diffs m'
  = (λ ds : list Diff, (λ d, (Path d, SrcHash d)) <$> ds) <$> Diffs m.
Proof.
  intros Hmsg HU. unfold Update in HU.
  destruct msg as [diffs|idx path|idx path err srcHash|key|].
  - by destruct (Hmsg diffs).
  - case_decide; by injection HU as <- _.
  - case_decide; [|by injection HU as <- _].
    destruct err as [e|]; [by injection HU as <- _|]. simpl in HU.
    destruct (slice_at (Diffs m) idx) as [ds|] eqn:Hds; [|done].
    injection HU as <- _. simpl.
    rewrite list_fmap_insert, patch_done_keeps_files.
    apply list_insert_id. rewrite list_lookup_fmap.
    apply slice_at_Some in Hds as [_ ->]. done.
  - repeat case_decide; try (by injection HU as <- _).
    destruct (slice_at (Pairs m) (Index m)); [|done].
    destruct (slice_at (Diffs m) (Index m)); [|done].
    by injection HU as <- _.
  - by injection HU as <- _.
Qed.

Lemma Update_keeps_listed_files_witness :
  let m := mkModel [mkDirectoryPair "src" "dst"] 0
             [[mkDiff "a" "x" "y" Mismatch; mkDiff "b" "h" "" MissingDestination]]
             false {["a"]} in
  let m' := mkModel [mkDirectoryPair "src" "dst"] 0
              [[mkDiff "a" "x" "z" Match; mkDiff "b" "h" "" MissingDestination]]
              false ∅ in
  (λ ds : list Diff, (λ d, (Path d, SrcHash d)) <$> ds) <$> Diffs m'
  = (λ ds : list Diff, (λ d, (Path d, SrcHash d)) <$> ds) <$> Diffs m.
Proof.
  intros m m'.
  apply (Update_keeps_listed_files m m' (syncDoneMsg 0 "a" None "z") None).
  - intros diffs [=].
  - reflexivity.
Defined.

Lemma ComputeDiff_self_all_match_witness :
  let A := [mkFileHash "foo.txt" "h1"; mkFileHash "bar.txt" "h2";
            mkFileHash "foo.txt" "h3"] in
  Status (mkDiff "foo.txt" "h3" "h3" Match) = Match ∧
  SrcHash (mkDiff "foo.txt" "h3" "h3" Match)
  = DstHash (mkDiff "foo.txt" "h3" "h3" Match).
Proof.
  intros A. apply (ComputeDiff_self_all_match A).
  apply (bool_decide_unpack _). vm_compute. exact I.
Defined.

Lemma ComputeDiff_hashes_follow_status_witness :
  let A := [mkFileHash "a" "x"] in
  let B := [mkFileHash "a" "y"; mkFileHash "b" "z"] in
  let d := mkDiff "b" "" "z" MissingSource in
  (Status d = Match → SrcHash d = DstHash d) ∧
  (Status d = Mismatch → SrcHash d ≠ DstHash d) ∧
  (Status d = MissingSource → SrcHash d = "") ∧
  (Status d = MissingDestination → DstHash d = "").
Proof.
  intros A B d. apply (ComputeDiff_hashes_follow_status A B d).
  apply (bool_decide_unpack _). vm_compute. exact I.
Defined.
